(** * gorilla: the gorilla/websocket connection adapter

    A shallow embedding of the adapter [GorillaWebsocketConnectionAdapter]
    (package [gorilla]) and of the two notification scans it uses to
    correlate pong and close control frames with blocked [Ping] callers.

    Conventions of the model.
    - The gorilla connection is an opaque handle.  Every call into it
      ([DialContext], [WriteControl], [WriteMessage], [ReadMessage]) takes
      its outcome as an argument of the embedded method.
    - [adapter.mu] is not a field of the model: the code between [Lock] and
      [Unlock] is one atomic transition.
    - [pingRequests] is a buffered channel: a FIFO buffer plus the capacity
      it was made with.  The reply channels it carries are unbuffered, so a
      non-blocking send on one succeeds exactly when its owner is parked in
      a receive; the state of every reply channel is kept in a finite map.
    - [Ping] blocks in two places, so it is embedded as a transition
      function over program points; [None] means that the goroutine cannot
      move in the current state.
    - A log records the calls into the connection, the channel operations
      and the writes to [adapter.conn] in program order. *)

From Stdlib Require Import ZArith Lia.
From stdpp Require Import base option list strings gmap.

Local Open Scope Z_scope.
Local Open Scope string_scope.

Module Gorilla.

(** ** Values *)

(** The two ways a [context.Context] ends; [ctx.Err()] reports which. *)
Inductive ctx_error := Canceled | DeadlineExceeded.

(** A context as the adapter observes it: [None] while [ctx.Done()] is
    open, [Some e] once it is closed with [ctx.Err() = e]. *)
Definition context := option ctx_error.

(** An error value handed out by the gorilla library, through what the
    adapter observes of it: the text of [err.Error()] and, when the dynamic
    type is [*websocket.CloseError], the [Code] field. *)
Record lib_error := LibError {
  Error : string;
  closeCode : option Z
}.

(** The error values the adapter returns or sends to a listener. *)
Inductive error :=
| ctxErr (e : ctx_error)                    (* ctx.Err() *)
| Errorf (msg : string)                     (* fmt.Errorf(msg) *)
| ErrorfW (msg : string) (err : lib_error)  (* fmt.Errorf(msg + "%w", err) *)
| Lib (err : lib_error)                     (* a library error, as it is *)
| WebsocketCloseError (Code : Z) (Reason : string) (Err : error).

Definition Conn := nat.
Definition Response := nat.
Definition chan := nat.

Inductive Dialer := DefaultDialer | CustomDialer (id : nat).
Definition Header := list (string * list string).

(** [wsconnadapter.MessageType] and [wsconnadapter.StatusCode] are integer
    types. *)
Definition MessageType := Z.
Definition StatusCode := Z.

(** Modelled from the spec: the constants [Text] and [Binary] of package
    [wsadapters], the only members of [MessageType] ("type ∈ {Text, Binary}").
    Their declarations are not part of the sources; [Write] hands
    [int(msgType)] to gorilla unchanged, so they carry gorilla's opcodes. *)
Definition Text : MessageType := 1.
Definition Binary : MessageType := 2.
Definition valid_MessageType (t : MessageType) : bool :=
  Z.eqb t Text || Z.eqb t Binary.

(** The control frames the adapter writes. [CloseFrame code reason] stands
    for [websocket.CloseMessage] with payload
    [websocket.FormatCloseMessage(code, reason)]. *)
Inductive control_frame :=
| CloseFrame (code : Z) (reason : string)
| PingFrame.

(** ** Reply channels *)

(** State of an unbuffered [chan error] made by [Ping]. *)
Inductive recv_state :=
| NoReceiver                           (* nobody is blocked in a receive *)
| Receiving                            (* the owner is parked in its last select *)
| Received (notification : option error). (* a value was handed over *)

(** [select { case listener <- notification: ... default: ... }]: the send
    goes through only if a receiver is parked on [listener]. *)
Definition try_send (chans : gmap chan recv_state) (listener : chan)
    (notification : option error) : option (gmap chan recv_state) :=
  match chans !! listener with
  | Some Receiving => Some (<[listener := Received notification]> chans)
  | _ => None
  end.

Definition waiting (chans : gmap chan recv_state) (c : chan) : bool :=
  match chans !! c with
  | Some Receiving => true
  | _ => false
  end.

(** ** Log *)

Inductive event :=
| EvDialContext (target : string)
| EvSetCloseHandler (c : Conn)
| EvSetPongHandler (c : Conn)
| EvWriteControl (c : Conn) (frame : control_frame)
| EvWriteMessage (c : Conn) (msgType : Z) (msg : option (list Byte.byte))
| EvReadMessage (c : Conn)
| EvMake (pong : chan)                                  (* make(chan error) *)
| EvEnqueue (pong : chan)                               (* pingRequests <- pong *)
| EvNotify (listener : chan) (notification : option error) (* listener <- notification *)
| EvDiscard (listener : chan)                           (* received, not writeable *)
| EvSetConn (c : option Conn).                          (* adapter.conn = c *)

(** ** State *)

(** [make(chan chan error, n)] *)
Record bchan := BChan {
  buf : list chan;
  cap : nat
}.

Record GorillaWebsocketConnectionAdapter := Adapter {
  conn : option Conn;
  dialer : Dialer;
  requestHeader : option Header;
  pingRequests : bchan
}.

(** The adapter together with the reply channels made so far and the log. *)
Record world := World {
  adapter : GorillaWebsocketConnectionAdapter;
  chans : gmap chan recv_state;
  next_chan : chan;
  log : list event
}.

Definition set_conn (c : option Conn) (w : world) : world :=
  World (Adapter c (dialer (adapter w)) (requestHeader (adapter w))
                 (pingRequests (adapter w)))
        (chans w) (next_chan w) (log w ++ [EvSetConn c]).

Definition set_listeners (q : list chan) (w : world) : world :=
  World (Adapter (conn (adapter w)) (dialer (adapter w))
                 (requestHeader (adapter w))
                 (BChan q (cap (pingRequests (adapter w)))))
        (chans w) (next_chan w) (log w).

Definition set_chans (h : gmap chan recv_state) (w : world) : world :=
  World (adapter w) h (next_chan w) (log w).

Definition emit (evs : list event) (w : world) : world :=
  World (adapter w) (chans w) (next_chan w) (log w ++ evs).

Definition listeners (w : world) : list chan := buf (pingRequests (adapter w)).

(** ** Construction *)

Definition NewGorillaWebsocketConnectionAdapter (dialer : option Dialer)
    (requestHeader : option Header) : GorillaWebsocketConnectionAdapter :=
  let dialer := match dialer with
                | None => DefaultDialer
                | Some d => d
                end in
  {| conn := None;
     dialer := dialer;
     requestHeader := requestHeader;
     pingRequests := BChan [] 10 |}.

Definition new_world (a : GorillaWebsocketConnectionAdapter) : world :=
  World a ∅ 0%nat [].

(** ** The notification scans *)

(** Result of a scan: what is left in the buffer, the reply channels, and
    the channel operations performed. *)
Record scan := Scan {
  scan_left : list chan;
  scan_chans : gmap chan recv_state;
  scan_log : list event
}.

Definition scan_cons (e : event) (r : scan) : scan :=
  Scan (scan_left r) (scan_chans r) (e :: scan_log r).

(** The loop receives from [listeners] until the buffer is empty (the
    [default] branch) or a send goes through. *)
Fixpoint propagateToFirstActiveListener (listeners : list chan)
    (notification : option error) (chans : gmap chan recv_state)
    : bool * scan :=
  match listeners with
  | [] => (false, Scan [] chans [])
  | listener :: listeners' =>
      match try_send chans listener notification with
      | Some chans' =>
          (true, Scan listeners' chans' [EvNotify listener notification])
      | None =>
          let '(b, r) :=
            propagateToFirstActiveListener listeners' notification chans in
          (b, scan_cons (EvDiscard listener) r)
      end
  end.

Fixpoint propagateToAllActiveListener (listeners : list chan)
    (notification : option error) (chans : gmap chan recv_state) : scan :=
  match listeners with
  | [] => Scan [] chans []
  | listener :: listeners' =>
      match try_send chans listener notification with
      | Some chans' =>
          (* return *)
          Scan listeners' chans' [EvNotify listener notification]
      | None =>
          (* continue *)
          scan_cons (EvDiscard listener)
            (propagateToAllActiveListener listeners' notification chans)
      end
  end.

Definition apply_scan (r : scan) (w : world) : world :=
  emit (scan_log r) (set_chans (scan_chans r) (set_listeners (scan_left r) w)).

(** ** Handlers installed by [Dial] *)

Definition pongHandler (appData : string) (w : world) : option error * world :=
  let '(_, r) := propagateToFirstActiveListener (listeners w) None (chans w) in
  (None, apply_scan r w).

Definition closeHandler (code : Z) (text : string) (w : world)
    : option error * world :=
  let r := propagateToAllActiveListener (listeners w)
             (Some (WebsocketCloseError code text
                      (Errorf "close message received from server")))
             (chans w) in
  (None, apply_scan r w).

(** ** Methods that run under the lock or do not block on a channel *)

(** Outcome of [adapter.dialer.DialContext]: gorilla returns a connection
    exactly when it returns no error; the response may be nil either way. *)
Inductive dial_outcome :=
| DialOK (c : Conn) (res : option Response)
| DialErr (res : option Response) (err : lib_error).

Definition Dial (ctx : context) (target : string) (dial : dial_outcome)
    (w : world) : (option Response * option error) * world :=
  match ctx with
  | Some e => ((None, Some (ctxErr e)), w)
  | None =>
      match conn (adapter w) with
      | Some _ =>
          ((None, Some (Errorf "a connection has already been established")), w)
      | None =>
          let w := emit [EvDialContext target] w in
          match dial with
          | DialErr res err => ((res, Some (Lib err)), w)
          | DialOK c res =>
              let w := set_conn (Some c) w in
              let w := emit [EvSetCloseHandler c; EvSetPongHandler c] w in
              ((res, None), w)
          end
      end
  end.

(** [write] is the result of [adapter.conn.WriteControl]. *)
Definition Close (ctx : context) (code : StatusCode) (reason : string)
    (write : option lib_error) (w : world) : option error * world :=
  match conn (adapter w) with
  | None =>
      (Some (Errorf "close failed because no connection is already up"), w)
  | Some c =>
      let w := emit [EvWriteControl c (CloseFrame code reason)] w in
      let err := Lib <$> write in
      let w := apply_scan
                 (propagateToAllActiveListener (listeners w)
                    (Some (WebsocketCloseError code reason
                             (Errorf "client closed the connection")))
                    (chans w)) w in
      let w := set_conn None w in
      (err, w)
  end.

(** [write] is the result of [adapter.conn.WriteMessage]. *)
Definition Write (ctx : context) (msgType : MessageType)
    (msg : option (list Byte.byte)) (write : option lib_error) (w : world)
    : option error * world :=
  match ctx with
  | Some e => (Some (ctxErr e), w)
  | None =>
      match conn (adapter w) with
      | None =>
          (Some (Errorf "write failed because no connection is already up"), w)
      | Some c => (Lib <$> write, emit [EvWriteMessage c msgType msg] w)
      end
  end.

(** Control frames that [conn.ReadMessage] hands to the installed handlers
    while it looks for the next data frame. *)
Inductive inbound :=
| InPong (appData : string)
| InClose (code : Z) (text : string).

Definition handle (w : world) (f : inbound) : world :=
  match f with
  | InPong appData => (pongHandler appData w).2
  | InClose code text => (closeHandler code text w).2
  end.

(** One call of [conn.ReadMessage]: the control frames it dispatched, then
    the three values it returned. *)
Record read_outcome := ReadOutcome {
  rm_handled : list inbound;
  rm_msgType : Z;
  rm_msg : option (list Byte.byte);
  rm_err : option lib_error
}.

Definition Read (ctx : context) (rm : read_outcome) (w : world)
    : (MessageType * option (list Byte.byte) * option error) * world :=
  match ctx with
  | Some e => ((-1, None, Some (ctxErr e)), w)
  | None =>
      match conn (adapter w) with
      | None =>
          ((-1, None,
            Some (Errorf "read failed because no connection is already up")), w)
      | Some c =>
          let w := foldl handle (emit [EvReadMessage c] w) (rm_handled rm) in
          match rm_err rm with
          | Some err =>
              match closeCode err with
              | Some ceCode =>
                  let w := set_conn None w in
                  let closeErr :=
                    WebsocketCloseError ceCode (Error err) (Lib err) in
                  ((-1, None, Some closeErr), w)
              | None => ((-1, None, Some (Lib err)), w)
              end
          | None => ((rm_msgType rm, rm_msg rm, None), w)
          end
      end
  end.

Definition GetUnderlyingWebsocketConnection (w : world) : option Conn :=
  conn (adapter w).

(** ** Ping *)

(** Program points of [Ping]. *)
Inductive ping_pc :=
| PingEntry                              (* the first select *)
| PingLoad                               (* conn := adapter.conn under the lock *)
| PingRegister (c : Conn) (pong : chan)  (* select: pingRequests <- pong | ctx.Done() *)
| PingSend (c : Conn) (pong : chan)      (* conn.WriteControl(PingMessage, ...) *)
| PingSelect (pong : chan)               (* reaching the last select *)
| PingParked (pong : chan)               (* blocked in the last select *)
| PingReturn (err : option error).

(** A goroutine running [Ping ctx]. *)
Record goroutine := Goroutine {
  g_ctx : context;
  g_pc : ping_pc
}.

(** What one run of [Ping] takes from outside: the case a select picks when
    both of its cases are ready, and the result of [WriteControl]. *)
Record ping_oracle := PingOracle {
  pick_done : bool;
  write_control : option lib_error
}.

Definition Ping_step (o : ping_oracle) (g : goroutine) (w : world)
    : option (ping_pc * world) :=
  match g_pc g with
  | PingEntry =>
      match g_ctx g with
      | Some e => Some (PingReturn (Some (ctxErr e)), w)
      | None => Some (PingLoad, w)
      end
  | PingLoad =>
      match conn (adapter w) with
      | None =>
          Some (PingReturn
                  (Some (Errorf "ping failed because no connection is already up")),
                w)
      | Some c =>
          let pong := next_chan w in
          Some (PingRegister c pong,
                World (adapter w) (<[pong := NoReceiver]> (chans w))
                      (S pong) (log w ++ [EvMake pong]))
      end
  | PingRegister c pong =>
      let enqueue :=
        emit [EvEnqueue pong] (set_listeners (listeners w ++ [pong]) w) in
      let room :=
        (length (listeners w) <? cap (pingRequests (adapter w)))%nat in
      match room, g_ctx g with
      | true, None => Some (PingSend c pong, enqueue)
      | true, Some e =>
          if pick_done o then Some (PingReturn (Some (ctxErr e)), w)
          else Some (PingSend c pong, enqueue)
      | false, Some e => Some (PingReturn (Some (ctxErr e)), w)
      | false, None => None
      end
  | PingSend c pong =>
      let w := emit [EvWriteControl c PingFrame] w in
      match write_control o with
      | Some err => Some (PingReturn (Some (ErrorfW "ping failed: " err)), w)
      | None => Some (PingSelect pong, w)
      end
  | PingSelect pong =>
      match g_ctx g with
      | Some e => Some (PingReturn (Some (ctxErr e)), w)
      | None => Some (PingParked pong, set_chans (<[pong := Receiving]> (chans w)) w)
      end
  | PingParked pong =>
      match chans w !! pong with
      | Some (Received err) =>
          Some (PingReturn err, set_chans (<[pong := NoReceiver]> (chans w)) w)
      | _ => None
      end
  | PingReturn _ => None
  end.

(** [ctx.Done()] is closed.  A goroutine parked in the last select of [Ping]
    leaves the receive queue of its reply channel and resumes in the
    [ctx.Done()] case, unless a sender got there first. *)
Definition cancel (e : ctx_error) (g : goroutine) (w : world)
    : goroutine * world :=
  match g_ctx g with
  | Some _ => (g, w)
  | None =>
      match g_pc g with
      | PingParked pong =>
          if waiting (chans w) pong
          then (Goroutine (Some e) (PingReturn (Some (ctxErr e))),
                set_chans (<[pong := NoReceiver]> (chans w)) w)
          else (Goroutine (Some e) (PingParked pong), w)
      | pc => (Goroutine (Some e) pc, w)
      end
  end.

(** Runs the goroutine on its own until it returns or cannot move. *)
Fixpoint Ping_run (fuel : nat) (o : ping_oracle) (g : goroutine) (w : world)
    : goroutine * world :=
  match fuel with
  | O => (g, w)
  | S fuel =>
      match Ping_step o g w with
      | None => (g, w)
      | Some (pc, w') => Ping_run fuel o (Goroutine (g_ctx g) pc) w'
      end
  end.

(** A call of [Ping]: at most six transitions lead from the entry to a
    return or to a point where the goroutine is blocked. *)
Definition Ping (ctx : context) (o : ping_oracle) (w : world)
    : goroutine * world :=
  Ping_run 6 o (Goroutine ctx PingEntry) w.

(** ** Error taxonomy *)

(** The four "no connection" errors differ in the name of the operation. *)
Definition NotBoundError (op : string) : error :=
  Errorf (op ++ " failed because no connection is already up").

Definition AlreadyBoundError : error :=
  Errorf "a connection has already been established".

Definition ContextError (e : ctx_error) : error := ctxErr e.

(** A library error that is not a close notification, returned as it is. *)
Definition TransportError (err : lib_error) : error := Lib err.

(** ** Interleavings *)

(** Whatever else can touch the world while a goroutine is inside [Ping]:
    the other methods, the handlers run by a reader, and moves of other
    goroutines that are inside [Ping] themselves. *)
Inductive action :=
| ADial (ctx : context) (target : string) (dial : dial_outcome)
| AClose (ctx : context) (code : StatusCode) (reason : string)
         (write : option lib_error)
| AWrite (ctx : context) (msgType : MessageType)
         (msg : option (list Byte.byte)) (write : option lib_error)
| ARead (ctx : context) (rm : read_outcome)
| APing (o : ping_oracle) (g : goroutine)
| ACancel (e : ctx_error) (g : goroutine).

Definition act (a : action) (w : world) : world :=
  match a with
  | ADial ctx target dial => (Dial ctx target dial w).2
  | AClose ctx code reason write => (Close ctx code reason write w).2
  | AWrite ctx msgType msg write => (Write ctx msgType msg write w).2
  | ARead ctx rm => (Read ctx rm w).2
  | APing o g =>
      match Ping_step o g w with
      | Some (_, w') => w'
      | None => w
      end
  | ACancel e g => (cancel e g w).2
  end.

(** An action that runs no notification scan. *)
Definition scan_free (a : action) : bool :=
  match a with
  | AClose _ _ _ _ => false
  | ARead _ rm => match rm_handled rm with [] => true | _ => false end
  | _ => true
  end.

(** The events a transition from [w] to [w'] added to the log. *)
Definition emitted (w w' : world) : list event :=
  drop (length (log w)) (log w').

(** [exec g0 w0 tr g w]: the goroutine that started as [g0] in [w0] is now
    [g] in [w], after some moves of its own, which emitted [tr], interleaved
    with cancellation of its context and with actions of others. *)
Inductive exec (g0 : goroutine) (w0 : world)
    : list event → goroutine → world → Prop :=
| exec_start : exec g0 w0 [] g0 w0
| exec_own tr g w o pc w' :
    exec g0 w0 tr g w →
    Ping_step o g w = Some (pc, w') →
    exec g0 w0 (tr ++ emitted w w') (Goroutine (g_ctx g) pc) w'
| exec_cancel tr g w e :
    exec g0 w0 tr g w →
    exec g0 w0 tr (cancel e g w).1 (cancel e g w).2
| exec_env tr g w a :
    exec g0 w0 tr g w →
    exec g0 w0 tr g (act a w).

(** The buffer of [pingRequests] within its capacity. *)
Definition within_capacity (w : world) : Prop :=
  (length (listeners w) ≤ cap (pingRequests (adapter w)))%nat.

(** [w'] has the capacity of [w] and at most as many queued listeners. *)
Definition drained (w w' : world) : Prop :=
  cap (pingRequests (adapter w')) = cap (pingRequests (adapter w))
  ∧ (length (listeners w') ≤ length (listeners w))%nat.

(** What a goroutine that entered [Ping] has emitted by the time it stands
    at a given program point. *)
Definition own_trace (pc : ping_pc) (tr : list event) : Prop :=
  match pc with
  | PingEntry | PingLoad => tr = []
  | PingRegister c pong => tr = [EvMake pong]
  | PingSend c pong => tr = [EvMake pong; EvEnqueue pong]
  | PingSelect pong | PingParked pong =>
      ∃ c, tr = [EvMake pong; EvEnqueue pong; EvWriteControl c PingFrame]
  | PingReturn _ =>
      tr = []
      ∨ (∃ pong, tr = [EvMake pong])
      ∨ (∃ c pong,
           tr = [EvMake pong; EvEnqueue pong; EvWriteControl c PingFrame])
  end.

(** ** Sample worlds *)

(** A freshly built adapter after a successful [Dial]. *)
Definition dialed : world :=
  (Dial None "ws://peer/echo" (DialOK 1%nat None)
        (new_world (NewGorillaWebsocketConnectionAdapter None None))).2.

Definition pong_ok : ping_oracle := PingOracle false None.

(** Two callers of [Ping], both blocked in their last select. *)
Definition two_pending : world :=
  (Ping None pong_ok (Ping None pong_ok dialed).2).2.

(** A caller whose context ended while it waited, then two callers that
    still wait: the buffer holds the abandoned reply channel first. *)
Definition abandoned_then_two : world :=
  let '(g, w) := Ping None pong_ok dialed in
  let w := (cancel DeadlineExceeded g w).2 in
  (Ping None pong_ok (Ping None pong_ok w).2).2.

(** Ten callers blocked in their last select: the buffer is full. *)
Definition full : world :=
  Nat.iter 10 (λ w, (Ping None pong_ok w).2) dialed.

(** A [WriteControl] that fails. *)
Definition broken_pipe : lib_error := LibError "write: broken pipe" None.
Definition ping_fails : ping_oracle := PingOracle false (Some broken_pipe).

(** A caller of [Ping] on [dialed] after [n] transitions of its own. *)
Definition pinging (n : nat) : goroutine * world :=
  Ping_run n pong_ok (Goroutine None PingEntry) dialed.

(** A pong frame dispatched by a reader while it looks for a data frame. *)
Definition stray_pong : action :=
  ARead None (ReadOutcome [InPong ""] Text (Some []) None).

(** ** Reachable worlds *)

Definition run (acts : list action) (w : world) : world :=
  foldl (λ w a, act a w) w acts.

(** A world that a new adapter reaches through some actions. *)
Definition reachable (w : world) : Prop :=
  ∃ d h acts,
    w = run acts (new_world (NewGorillaWebsocketConnectionAdapter d h)).

(** The notifications the adapter sends to a listener: nil from the pong
    handler, a close error from [Close] or from the close handler. *)
Definition reply (n : option error) : Prop :=
  match n with
  | None => True
  | Some (WebsocketCloseError _ _ (Errorf msg)) =>
      msg = "client closed the connection"
      ∨ msg = "close message received from server"
  | Some _ => False
  end.

(** [evs] accounts for every value that sits in a reply channel of [h'] and
    did not sit there in [h]: it is a notification of the adapter and its
    delivery is among [evs]. *)
Definition delivers (h h' : gmap chan recv_state) (evs : list event) : Prop :=
  ∀ c n,
    h' !! c = Some (Received n) →
    h !! c = Some (Received n) ∨ (reply n ∧ EvNotify c n ∈ evs).

(** What [Ping] can return. *)
Definition ping_result (r : option error) : Prop :=
  match r with
  | None => True
  | Some (ctxErr _) => True
  | Some (Errorf msg) =>
      msg = "ping failed because no connection is already up"
  | Some (ErrorfW msg _) => msg = "ping failed: "
  | Some (Lib _) => False
  | Some (WebsocketCloseError _ _ _) => reply r
  end.

(** ** Reading the result of a scan *)

(** The result [r] of a scan of [q] changed no reply channel, or only the
    channel of one listener of [q] who was waiting. *)
Definition serves_one_waiting (q : list chan) (notification : option error)
    (chans : gmap chan recv_state) (r : scan) : Prop :=
  scan_chans r = chans
  ∨ ∃ winner,
      winner ∈ q ∧ waiting chans winner = true
      ∧ scan_chans r = <[winner := Received notification]> chans.

(** How an action changes the connection, if it does. *)
Definition rebinds (a : action) (w w' : world) : Prop :=
  match a with
  | ADial None _ (DialOK c _) =>
      conn (adapter w) = None ∧ conn (adapter w') = Some c
  | AClose _ _ _ _ =>
      is_Some (conn (adapter w)) ∧ conn (adapter w') = None
  | ARead None rm =>
      is_Some (conn (adapter w)) ∧ conn (adapter w') = None
      ∧ ∃ err ceCode, rm_err rm = Some err ∧ closeCode err = Some ceCode
  | _ => False
  end.

(** [w'] comes after [w]: its log is the log of [w] followed by [evs],
    and [evs] accounts for what its reply channels newly hold. *)
Definition extends (w w' : world) (evs : list event) : Prop :=
  log w' = (log w ++ evs)%list ∧ delivers (chans w) (chans w') evs.

(** What a goroutine that entered [Ping] knows at a program point, [tr]
    being what it emitted and [ext] what the log gained since the entry:
    a value in its reply channel is a notification whose delivery is in
    [ext]; a returned value is a result of [Ping], and if it is a
    notification, the frame was written and the delivery is in [ext]. *)
Definition answered (pc : ping_pc) (tr : list event)
    (chans : gmap chan recv_state) (ext : list event) : Prop :=
  match pc with
  | PingEntry | PingLoad => True
  | PingRegister _ pong | PingSend _ pong
  | PingSelect pong | PingParked pong =>
      ∀ n, chans !! pong = Some (Received n) →
           reply n ∧ EvNotify pong n ∈ ext
  | PingReturn r =>
      ping_result r
      ∧ (reply r →
         ∃ c pong,
           tr = [EvMake pong; EvEnqueue pong; EvWriteControl c PingFrame]
           ∧ EvNotify pong r ∈ ext)
  end.

(** ** One pass through the loop of a scan *)

(** How a pass through the loop ends: with [continue], or with a return. *)
Inductive loop :=
| Continue
| Return (found : bool).

(** One pass through the loop of [propagateToFirstActiveListener] on the
    world: the receive from [pingRequests], then the non-blocking send.
    Between two passes other goroutines may run; one that was blocked
    sending to the full buffer is let in by the receive. *)
Definition scan_iteration (notification : option error) (w : world)
    : loop * world :=
  match listeners w with
  | [] => (Return false, w)
  | listener :: rest =>
      let w := set_listeners rest w in
      match try_send (chans w) listener notification with
      | Some chans' =>
          (Return true,
           emit [EvNotify listener notification] (set_chans chans' w))
      | None => (Continue, emit [EvDiscard listener] w)
      end
  end.

(** ** More sample worlds *)

(** A call of [Ping] whose context ends while it waits. *)
Definition abandon (w : world) : world :=
  let '(g, w) := Ping None pong_ok w in (cancel Canceled g w).2.

(** Ten abandoned calls: the buffer is full and nobody waits. *)
Definition saturated : world := Nat.iter 10 abandon dialed.


End Gorilla.

(** * The example client

    [ExampleClientImpl] of package [websocket] (example/client), a set of
    callbacks that the engine runs around the adapter.  The calls to the
    logger and to the tracer touch neither the fields of the client, nor
    the connection, nor the cancel functions; they are not part of the
    model.  [conn] is the adapter above; [exit] and [restart] are cancel
    functions, and a callback reports whether it called them. *)

Module ExampleClient.
Import Gorilla.

(** [int64] arithmetic wraps around. *)
Definition wrap64 (z : Z) : Z := (z + 2 ^ 63) mod 2 ^ 64 - 2 ^ 63.

Record ExampleClientImpl := Client {
  processedMsgCount : Z;
  restartCount : Z
}.

Definition NewExampleClientImpl : ExampleClientImpl :=
  {| processedMsgCount := 0; restartCount := 0 |}.

(** [fmt.Errorf(msg + "%w", err)] around an error of the adapter. *)
Inductive client_error :=
| Wrap (msg : string) (err : error).

(** What a callback did besides changing the client and the world. *)
Record outcome := Outcome {
  returned : option client_error;
  exit_called : bool;
  restart_called : bool
}.

Definition hello (text : string) : option (list Byte.byte) :=
  Some (String.list_byte_of_string text).

(** [write] is the result of the transport write inside [conn.Write]. *)
Definition OnOpen (ctx : context) (restarting : bool)
    (write : option lib_error) (client : ExampleClientImpl) (w : world)
    : outcome * ExampleClientImpl * world :=
  let '(client, exit) :=
    if restarting then
      let restartCount := wrap64 (processedMsgCount client + 1) in
      (Client (processedMsgCount client) restartCount,
       Z.leb 3 restartCount)
    else (client, false) in
  let '(err, w) := Write ctx Text (hello "Hello from OnOpen") write w in
  match err with
  | Some err =>
      (Outcome (Some (Wrap "failed to start demo client: " err)) exit false,
       client, w)
  | None => (Outcome None exit false, Client 0 0, w)
  end.

Definition OnMessage (ctx : context) (sessionId : string)
    (msgType : MessageType) (msg : option (list Byte.byte))
    (write : option lib_error) (client : ExampleClientImpl) (w : world)
    : outcome * ExampleClientImpl * world :=
  let client :=
    Client (wrap64 (processedMsgCount client + 1)) (restartCount client) in
  let '(err, w) := Write ctx Text (hello "Hello from OnMessage") write w in
  match err with
  | Some _ => (Outcome None false true, client, w)
  | None => (Outcome None false false, client, w)
  end.

(** [retryCount] is an [int]. *)
Definition OnRestartError (err : error) (retryCount : Z)
    (client : ExampleClientImpl) : outcome * ExampleClientImpl :=
  (Outcome None (Z.leb 5 retryCount) false, client).

(** One message handed to [OnMessage], with the result of the write that
    the callback makes in reply. *)
Record delivery := Delivery {
  d_ctx : context;
  d_sessionId : string;
  d_msgType : MessageType;
  d_msg : option (list Byte.byte);
  d_write : option lib_error
}.

(** The engine hands the messages of a session to [OnMessage] one by one. *)
Definition session (ds : list delivery) (client : ExampleClientImpl)
    (w : world) : ExampleClientImpl * world :=
  foldl (λ cw d,
           let '(_, client, w) :=
             OnMessage (d_ctx d) (d_sessionId d) (d_msgType d) (d_msg d)
                       (d_write d) cw.1 cw.2 in
           (client, w))
        (client, w) ds.

End ExampleClient.

(** * Properties *)

Module Facts.
Import Gorilla.
Local Open Scope list_scope.


(** ** Non-blocking sends *)

Lemma try_send_waiting chans listener notification :
  waiting chans listener = true →
  try_send chans listener notification
  = Some (<[listener := Received notification]> chans).
Proof.
  unfold waiting, try_send.
  destruct (chans !! listener) as [[]|]; intros; done.
Qed.

Lemma try_send_not_waiting chans listener notification :
  waiting chans listener = false →
  try_send chans listener notification = None.
Proof.
  unfold waiting, try_send.
  destruct (chans !! listener) as [[]|]; intros; done.
Qed.

(** ** The scans *)

Section Scans.
Variable notification : option error.
Variable chans : gmap chan recv_state.

Lemma first_skips (skipped q : list chan) :
  Forall (λ c, waiting chans c = false) skipped →
  propagateToFirstActiveListener (skipped ++ q) notification chans
  = let '(b, r) := propagateToFirstActiveListener q notification chans in
    (b, Scan (scan_left r) (scan_chans r)
             (map EvDiscard skipped ++ scan_log r)).
Proof.
  induction 1 as [|c skipped Hc _ IH]; simpl.
  - by destruct (propagateToFirstActiveListener q notification chans)
      as [b []].
  - rewrite (try_send_not_waiting _ _ _ Hc), IH.
    by destruct (propagateToFirstActiveListener q notification chans)
      as [b []].
Qed.

Lemma all_skips (skipped q : list chan) :
  Forall (λ c, waiting chans c = false) skipped →
  propagateToAllActiveListener (skipped ++ q) notification chans
  = let r := propagateToAllActiveListener q notification chans in
    Scan (scan_left r) (scan_chans r) (map EvDiscard skipped ++ scan_log r).
Proof.
  induction 1 as [|c skipped Hc _ IH]; simpl.
  - by destruct (propagateToAllActiveListener q notification chans).
  - by rewrite (try_send_not_waiting _ _ _ Hc), IH.
Qed.

Lemma first_delivers (winner : chan) (rest : list chan) :
  waiting chans winner = true →
  propagateToFirstActiveListener (winner :: rest) notification chans
  = (true, Scan rest (<[winner := Received notification]> chans)
                [EvNotify winner notification]).
Proof. intros Hw. simpl. by rewrite (try_send_waiting _ _ _ Hw). Qed.

(** The scan for all listeners returns at its first delivery too. *)
Lemma all_delivers (winner : chan) (rest : list chan) :
  waiting chans winner = true →
  propagateToAllActiveListener (winner :: rest) notification chans
  = Scan rest (<[winner := Received notification]> chans)
         [EvNotify winner notification].
Proof. intros Hw. simpl. by rewrite (try_send_waiting _ _ _ Hw). Qed.

Lemma first_nobody (q : list chan) :
  Forall (λ c, waiting chans c = false) q →
  propagateToFirstActiveListener q notification chans
  = (false, Scan [] chans (map EvDiscard q)).
Proof.
  intros H. rewrite <- (app_nil_r q) at 1.
  rewrite (first_skips _ _ H). simpl. by rewrite app_nil_r.
Qed.

Lemma all_nobody (q : list chan) :
  Forall (λ c, waiting chans c = false) q →
  propagateToAllActiveListener q notification chans
  = Scan [] chans (map EvDiscard q).
Proof.
  intros H. rewrite <- (app_nil_r q) at 1.
  rewrite (all_skips _ _ H). simpl. by rewrite app_nil_r.
Qed.

(** Every buffer either holds nobody who waits, or splits at the first
    listener who does. *)
Lemma first_waiting_split (q : list chan) :
  Forall (λ c, waiting chans c = false) q
  ∨ ∃ skipped winner rest,
      q = skipped ++ winner :: rest
      ∧ Forall (λ c, waiting chans c = false) skipped
      ∧ waiting chans winner = true.
Proof.
  induction q as [|c q IH]; [by left|].
  destruct (waiting chans c) eqn:Hc.
  - right. exists [], c, q. by repeat split.
  - destruct IH as [IH|(skipped & winner & rest & -> & Hs & Hw)].
    + left. by constructor.
    + right. exists (c :: skipped), winner, rest. repeat split; [|done].
      by constructor.
Qed.
End Scans.

(** ** What the handlers leave alone *)

Lemma apply_scan_adapter r w :
  conn (adapter (apply_scan r w)) = conn (adapter w)
  ∧ cap (pingRequests (adapter (apply_scan r w)))
    = cap (pingRequests (adapter w))
  ∧ log (apply_scan r w) = log w ++ scan_log r
  ∧ listeners (apply_scan r w) = scan_left r
  ∧ chans (apply_scan r w) = scan_chans r.
Proof. done. Qed.

Lemma handle_conn w f : conn (adapter (handle w f)) = conn (adapter w).
Proof.
  destruct f as [appData|code text]; simpl; [|done].
  unfold pongHandler.
  by destruct (propagateToFirstActiveListener _ _ _) as [b r].
Qed.

Lemma handled_conn fs w :
  conn (adapter (foldl handle w fs)) = conn (adapter w).
Proof.
  revert w. induction fs as [|f fs IH]; intros w; simpl; [done|].
  by rewrite IH, handle_conn.
Qed.

(** ** Scans only take from the buffer *)

Lemma first_left_length q notification chans :
  (length (scan_left (propagateToFirstActiveListener q notification chans).2)
   ≤ length q)%nat.
Proof.
  induction q as [|c q IH]; simpl; [done|].
  destruct (try_send chans c notification); simpl; [lia|].
  destruct (propagateToFirstActiveListener q notification chans) as [b r].
  simpl in *. lia.
Qed.

Lemma all_left_length q notification chans :
  (length (scan_left (propagateToAllActiveListener q notification chans))
   ≤ length q)%nat.
Proof.
  induction q as [|c q IH]; simpl; [done|].
  destruct (try_send chans c notification); simpl; lia.
Qed.

(** The events of the scan for all listeners are deliveries of that
    notification and discards. *)
Lemma all_log_shape q notification chans :
  Forall (λ e, (∃ l, e = EvNotify l notification) ∨ (∃ l, e = EvDiscard l))
         (scan_log (propagateToAllActiveListener q notification chans)).
Proof.
  induction q as [|c q IH]; simpl; [constructor|].
  destruct (try_send chans c notification); simpl.
  - constructor; [left; by exists c|constructor].
  - constructor; [right; by exists c|done].
Qed.

Lemma handle_drained w f : drained w (handle w f).
Proof.
  destruct f as [appData|code text]; simpl.
  - unfold pongHandler.
    pose proof (first_left_length (listeners w) None (chans w)) as H.
    destruct (propagateToFirstActiveListener _ _ _) as [b r]. by split.
  - split; [done|]. apply all_left_length.
Qed.

Lemma handled_drained fs w : drained w (foldl handle w fs).
Proof.
  revert w. induction fs as [|f fs IH]; intros w; simpl; [by split|].
  destruct (IH (handle w f)) as [? ?], (handle_drained w f) as [? ?].
  split; [congruence|lia].
Qed.

(** ** Transitions of Ping *)

(** A transition of [Ping] keeps the connection and the capacity; it leaves
    the buffer alone, unless it is the registration, which needs room and
    appends the reply channel. *)
Lemma Ping_step_buffer o g w pc w' :
  Ping_step o g w = Some (pc, w') →
  conn (adapter w') = conn (adapter w)
  ∧ cap (pingRequests (adapter w')) = cap (pingRequests (adapter w))
  ∧ (listeners w' = listeners w
     ∨ ∃ c pong,
         g_pc g = PingRegister c pong ∧ pc = PingSend c pong
         ∧ (length (listeners w) < cap (pingRequests (adapter w)))%nat
         ∧ listeners w' = listeners w ++ [pong]).
Proof.
  unfold Ping_step. intros Hstep.
  destruct (g_pc g) as [| |c pong|c pong|pong|pong|r].
  - destruct (g_ctx g); injection Hstep as <- <-; auto.
  - destruct (conn (adapter w)) eqn:Hc; injection Hstep as <- <-; auto.
  - destruct (length (listeners w) <? cap (pingRequests (adapter w)))%nat
      eqn:Hroom.
    + apply Nat.ltb_lt in Hroom.
      destruct (g_ctx g); [destruct (pick_done o)|];
        injection Hstep as <- <-; repeat split; eauto 8.
    + destruct (g_ctx g); [|done]. injection Hstep as <- <-; auto.
  - destruct (write_control o); injection Hstep as <- <-; auto.
  - destruct (g_ctx g); injection Hstep as <- <-; auto.
  - destruct (chans w !! pong) as [[]|]; try done.
    injection Hstep as <- <-; auto.
  - done.
Qed.

Lemma cancel_buffer e g w :
  adapter (cancel e g w).2 = adapter w.
Proof.
  unfold cancel. destruct (g_ctx g); [done|].
  destruct (g_pc g); try done. by destruct (waiting _ _).
Qed.

(** ** Actions of others *)

Lemma act_cap a w :
  cap (pingRequests (adapter (act a w))) = cap (pingRequests (adapter w)).
Proof.
  destruct a as [ctx target dial|ctx code reason write|ctx msgType msg write
                |ctx rm|o g|e g]; simpl.
  - unfold Dial. destruct ctx; [done|].
    destruct (conn (adapter w)); [done|]. by destruct dial.
  - unfold Close. by destruct (conn (adapter w)).
  - unfold Write. destruct ctx; [done|]. by destruct (conn (adapter w)).
  - unfold Read. destruct ctx; [done|].
    destruct (conn (adapter w)) as [c|]; [|done].
    pose proof (handled_drained (rm_handled rm) (emit [EvReadMessage c] w))
      as [Hcap _].
    destruct (rm_err rm) as [err|]; [destruct (closeCode err)|]; simpl;
      by rewrite Hcap.
  - destruct (Ping_step o g w) as [[pc w']|] eqn:Hstep; [|done].
    by apply Ping_step_buffer in Hstep as (_ & ? & _).
  - by rewrite cancel_buffer.
Qed.

Lemma act_within_capacity a w :
  within_capacity w → within_capacity (act a w).
Proof.
  unfold within_capacity. intros Hw. rewrite act_cap.
  destruct a as [ctx target dial|ctx code reason write|ctx msgType msg write
                |ctx rm|o g|e g]; simpl.
  - unfold Dial. destruct ctx; [done|].
    destruct (conn (adapter w)); [done|]. by destruct dial.
  - unfold Close. destruct (conn (adapter w)) as [c|]; [|done]. simpl.
    etrans; [apply all_left_length|done].
  - unfold Write. destruct ctx; [done|]. by destruct (conn (adapter w)).
  - unfold Read. destruct ctx; [done|].
    destruct (conn (adapter w)) as [c|]; [|done].
    pose proof (handled_drained (rm_handled rm) (emit [EvReadMessage c] w))
      as [_ Hlen].
    change (listeners (emit [EvReadMessage c] w)) with (listeners w) in Hlen.
    destruct (rm_err rm) as [err|]; [destruct (closeCode err)|]; simpl;
      unfold listeners in *; simpl; lia.
  - destruct (Ping_step o g w) as [[pc w']|] eqn:Hstep; [|done].
    apply Ping_step_buffer in Hstep
      as (_ & _ & [->|(c & pong & _ & _ & Hroom & ->)]); [done|].
    rewrite length_app. simpl. lia.
  - unfold listeners. by rewrite cancel_buffer.
Qed.

(** An action that runs no scan removes nothing from the buffer. *)
Lemma act_scan_free_keeps a w pong :
  scan_free a = true → pong ∈ listeners w → pong ∈ listeners (act a w).
Proof.
  intros Hfree Hin.
  destruct a as [ctx target dial|ctx code reason write|ctx msgType msg write
                |ctx rm|o g|e g]; simpl in *.
  - unfold Dial. destruct ctx; [done|].
    destruct (conn (adapter w)); [done|]. by destruct dial.
  - done.
  - unfold Write. destruct ctx; [done|]. by destruct (conn (adapter w)).
  - unfold Read. destruct ctx; [done|].
    destruct (conn (adapter w)) as [c|]; [|done].
    destruct (rm_handled rm); [|done]. simpl.
    by destruct (rm_err rm) as [err|]; [destruct (closeCode err)|].
  - destruct (Ping_step o g w) as [[pc w']|] eqn:Hstep; [|done].
    apply Ping_step_buffer in Hstep
      as (_ & _ & [->|(c & pong' & _ & _ & _ & ->)]); [done|].
    apply elem_of_app. by left.
  - unfold listeners. by rewrite cancel_buffer.
Qed.

(** ** Executions *)

Lemma emitted_app w w' evs : log w' = log w ++ evs → emitted w w' = evs.
Proof. unfold emitted. intros ->. apply drop_app_length. Qed.

Lemma emitted_same w w' : log w' = log w → emitted w w' = [].
Proof. intros H. apply emitted_app. by rewrite app_nil_r. Qed.

(** [exec_own] with the resulting trace, goroutine and world spelled out. *)
Lemma exec_own_eq g0 w0 tr g w o tr' g' w' :
  exec g0 w0 tr g w →
  Ping_step o g w = Some (g_pc g', w') →
  g_ctx g' = g_ctx g →
  tr' = tr ++ emitted w w' →
  exec g0 w0 tr' g' w'.
Proof.
  intros He Hstep Hctx ->. destruct g' as [ctx' pc']. simpl in *. subst ctx'.
  by eapply exec_own.
Qed.

(** The events a goroutine emits inside [Ping] are, in this order: the
    making of its reply channel, the registration, the transmission. *)
Lemma exec_own_trace ctx w0 tr g w :
  exec (Goroutine ctx PingEntry) w0 tr g w → own_trace (g_pc g) tr.
Proof.
  induction 1 as [|tr g w o pc w' _ IH Hstep|tr g w e _ IH|tr g w a _ IH];
    simpl; [done| | |done].
  - unfold Ping_step in Hstep.
    destruct (g_pc g) as [| |c pong|c pong|pong|pong|r]; simpl in IH.
    + destruct (g_ctx g); injection Hstep as <- <-;
        rewrite emitted_same by done; subst tr; simpl; auto.
    + destruct (conn (adapter w)); injection Hstep as <- <-; subst tr.
      * by rewrite (emitted_app _ _ [EvMake (next_chan w)]).
      * rewrite emitted_same by done. simpl. auto.
    + assert (Henq : emitted w
                       (emit [EvEnqueue pong]
                          (set_listeners (listeners w ++ [pong]) w))
                     = [EvEnqueue pong]) by by apply emitted_app.
      destruct (_ <? _)%nat, (g_ctx g); try destruct (pick_done o);
        try done; injection Hstep as <- <-; subst tr;
        rewrite ?Henq, ?emitted_same by done; simpl; eauto.
    + rewrite (emitted_app _ _ [EvWriteControl c PingFrame])
        by (by destruct (write_control o); injection Hstep as <- <-).
      destruct (write_control o); injection Hstep as <- <-; subst tr;
        simpl; eauto.
    + destruct IH as [c ->].
      destruct (g_ctx g); injection Hstep as <- <-;
        rewrite emitted_same by done; simpl; eauto.
    + destruct IH as [c ->].
      destruct (chans w !! pong) as [[]|]; try done.
      injection Hstep as <- <-. rewrite emitted_same by done. simpl. eauto.
    + done.
  - unfold cancel. destruct (g_ctx g); [done|].
    destruct (g_pc g) as [| |c pong|c pong|pong|pong|r]; simpl in *; try done.
    destruct (waiting (chans w) pong); simpl; [|done].
    destruct IH as [c ->]. eauto.
Qed.

(** With a context that is done at entry, the goroutine emits nothing and
    is either still at the entry or has returned the error of the context. *)
Lemma exec_done_context e w0 tr g w :
  exec (Goroutine (Some e) PingEntry) w0 tr g w →
  tr = [] ∧ g_ctx g = Some e
  ∧ (g_pc g = PingEntry ∨ g_pc g = PingReturn (Some (ContextError e))).
Proof.
  induction 1 as [|tr g w o pc w' _ IH Hstep|tr g w e' _ IH|tr g w a _ IH];
    [by auto| | |done].
  - destruct IH as (-> & Hctx & [Hpc|Hpc]); unfold Ping_step in Hstep;
      rewrite Hpc in Hstep; [|done].
    rewrite Hctx in Hstep. injection Hstep as <- <-.
    rewrite emitted_same by done. auto.
  - destruct IH as (-> & Hctx & Hpc). unfold cancel. by rewrite Hctx.
Qed.


(** The caller of [Ping] on [dialed], run on its own up to the registration
    and up to the transmission. *)
Lemma exec_pinging_registered :
  exec (Goroutine None PingEntry) dialed [EvMake 0%nat; EvEnqueue 0%nat]
       (pinging 3).1 (pinging 3).2.
Proof.
  assert (E1 : exec (Goroutine None PingEntry) dialed []
                 (pinging 1).1 (pinging 1).2).
  { eapply (exec_own_eq _ _ _ _ _ pong_ok); [apply exec_start|..];
      by vm_compute. }
  assert (E2 : exec (Goroutine None PingEntry) dialed [EvMake 0%nat]
                 (pinging 2).1 (pinging 2).2).
  { eapply (exec_own_eq _ _ _ _ _ pong_ok); [exact E1|..]; by vm_compute. }
  eapply (exec_own_eq _ _ _ _ _ pong_ok); [exact E2|..]; by vm_compute.
Qed.

Lemma exec_pinging_sent :
  exec (Goroutine None PingEntry) dialed
       [EvMake 0%nat; EvEnqueue 0%nat; EvWriteControl 1%nat PingFrame]
       (pinging 4).1 (pinging 4).2.
Proof.
  eapply (exec_own_eq _ _ _ _ _ pong_ok); [exact exec_pinging_registered|..];
    by vm_compute.
Qed.

(** On an unbound adapter, nothing but a [Dial] that has an open context
    and obtains a connection binds. *)
Lemma act_stays_unbound a w :
  conn (adapter w) = None →
  conn (adapter (act a w)) = None
  ∨ ∃ target c res, a = ADial None target (DialOK c res).
Proof.
  intros Hc.
  destruct a as [ctx target dial|ctx code reason write|ctx msgType msg write
                |ctx rm|o g|e g]; simpl.
  - destruct ctx as [e|]; [left; unfold Dial; by rewrite ?Hc|].
    destruct dial as [c res|res err]; [right; by exists target, c, res|].
    left. unfold Dial. by rewrite Hc.
  - left. unfold Close. by rewrite Hc.
  - left. unfold Write. destruct ctx; by rewrite ?Hc.
  - left. unfold Read. destruct ctx; by rewrite ?Hc.
  - left. destruct (Ping_step o g w) as [[pc w']|] eqn:Hstep; [|done].
    apply Ping_step_buffer in Hstep as (Hconn & _). by rewrite Hconn.
  - left. by rewrite cancel_buffer.
Qed.

(** ** Executions without scans *)





End Facts.

Module Claims.
Import Gorilla Facts.
Local Open Scope list_scope.

(** Unfolds a call of [Ping] into its transitions. *)
Ltac ping_run := unfold Ping; cbn [Ping_run Ping_step g_pc g_ctx].

(** ** Teardown *)

(** C1. At the end of the session every waiting Ping should receive the
    close error.  With two callers waiting, [Close] hands the error to the
    first one only: the scan returns after its first delivery, the second
    reply channel stays in the buffer with its owner still parked, and that
    owner cannot move. *)
Theorem Close_releases_only_first_waiter :
  let closeErr := WebsocketCloseError 1000 "bye"
                    (Errorf "client closed the connection") in
  let w := (Close None 1000 "bye" None two_pending).2 in
  listeners two_pending = [0; 1]%nat
  ∧ waiting (chans two_pending) 0%nat = true
  ∧ waiting (chans two_pending) 1%nat = true
  ∧ chans w !! 0%nat = Some (Received (Some closeErr))
  ∧ chans w !! 1%nat = Some Receiving
  ∧ listeners w = [1%nat]
  ∧ conn (adapter w) = None
  ∧ Ping_step pong_ok (Goroutine None (PingParked 1%nat)) w = None.
Proof. vm_compute. repeat split. Qed.

(** ** Pong delivery *)



(** ** Binding *)

(** Counterexample to C3 as stated: with a context that is already done,
    [Dial] on a bound adapter and [Write], [Read] and [Ping] on an unbound
    one return the error of the context, not the binding error. *)
Lemma done_context_precedes_binding_errors :
  let unbound := new_world (NewGorillaWebsocketConnectionAdapter None None) in
  conn (adapter dialed) = Some 1%nat
  ∧ (Dial (Some Canceled) "ws://peer/echo" (DialOK 2%nat None) dialed).1.2
    = Some (ContextError Canceled)
  ∧ ContextError Canceled ≠ AlreadyBoundError
  ∧ conn (adapter unbound) = None
  ∧ (Write (Some Canceled) Text None None unbound).1
    = Some (ContextError Canceled)
  ∧ (Read (Some Canceled) (ReadOutcome [] Text None None) unbound).1.2
    = Some (ContextError Canceled)
  ∧ g_pc (Ping (Some Canceled) pong_ok unbound).1
    = PingReturn (Some (ContextError Canceled))
  ∧ (∀ op, ContextError Canceled ≠ NotBoundError op).
Proof. repeat split; done. Qed.

(** C3, amended.  With a context that is not done at entry: [Dial] on a
    bound adapter fails with the already-bound error and changes nothing;
    on an unbound adapter [Write], [Read] and [Ping] fail with the
    not-bound error of their name and change nothing, [Close] does so
    whatever its context is, and no action binds but a [Dial] that obtains
    a connection.  After any [Close], and after any [Read] whose transport
    read gave a close error, the adapter is unbound.  With a context that
    is done, whatever its error and whatever the binding, [Dial], [Write],
    [Read] and [Ping] return the error of the context and change
    nothing. *)
Theorem binding_discipline
    (w : world) (ctx : context) (e : ctx_error) (target : string)
    (dial : dial_outcome) (msgType : MessageType)
    (msg : option (list Byte.byte)) (write : option lib_error)
    (rm : read_outcome) (o : ping_oracle) (code : StatusCode)
    (reason text : string) (ceCode : Z) (a : action) :
  match conn (adapter w) with
  | Some c => Dial None target dial w = ((None, Some AlreadyBoundError), w)
  | None =>
      Write None msgType msg write w = (Some (NotBoundError "write"), w)
      ∧ Read None rm w = ((-1, None, Some (NotBoundError "read")), w)
      ∧ Ping None o w
        = (Goroutine None (PingReturn (Some (NotBoundError "ping"))), w)
      ∧ Close ctx code reason write w = (Some (NotBoundError "close"), w)
      ∧ (∀ c res,
           (Dial None target (DialOK c res) w).1 = (res, None)
           ∧ conn (adapter (Dial None target (DialOK c res) w).2) = Some c)
      ∧ (∀ res err,
           (Dial None target (DialErr res err) w).1
           = (res, Some (TransportError err))
           ∧ conn (adapter (Dial None target (DialErr res err) w).2) = None)
      ∧ (conn (adapter (act a w)) = None
         ∨ ∃ target' c res, a = ADial None target' (DialOK c res))
  end
  ∧ conn (adapter (Close ctx code reason write w).2) = None
  ∧ conn (adapter
            (Read None
               (ReadOutcome (rm_handled rm) (rm_msgType rm) (rm_msg rm)
                  (Some (LibError text (Some ceCode)))) w).2) = None
  ∧ Dial (Some e) target dial w = ((None, Some (ContextError e)), w)
  ∧ Write (Some e) msgType msg write w = (Some (ContextError e), w)
  ∧ Read (Some e) rm w = ((-1, None, Some (ContextError e)), w)
  ∧ Ping (Some e) o w
    = (Goroutine (Some e) (PingReturn (Some (ContextError e))), w).
Proof.
  split; [|split; [|split; [|done]]].
  - destruct (conn (adapter w)) as [c|] eqn:Hc.
    + unfold Dial. by rewrite Hc.
    + split; [unfold Write; by rewrite Hc|].
      split; [unfold Read; by rewrite Hc|].
      split; [ping_run; by rewrite Hc|].
      split; [unfold Close; by rewrite Hc|].
      split; [intros c res; unfold Dial; by rewrite Hc|].
      split; [intros res err; unfold Dial; by rewrite Hc|].
      by apply act_stays_unbound.
  - unfold Close. by destruct (conn (adapter w)) eqn:Hc.
  - unfold Read. by destruct (conn (adapter w)) eqn:Hc.
Qed.

(** ** Read *)

(** C4. When the transport read fails with a close error, [Read] clears the
    connection, so that a later [Dial] binds again, and returns a
    [WebsocketCloseError] with the close code and the text of the error;
    when it fails with any other error, [Read] returns that error as it is
    and the connection stays bound. *)
Theorem Read_transport_failure
    (w : world) (c : Conn) (handled : list inbound) (msgType : Z)
    (msg : option (list Byte.byte)) (err : lib_error) :
  conn (adapter w) = Some c →
  let out := Read None (ReadOutcome handled msgType msg (Some err)) w in
  match closeCode err with
  | Some ceCode =>
      out.1 = (-1, None,
               Some (WebsocketCloseError ceCode (Error err) (Lib err)))
      ∧ conn (adapter out.2) = None
      ∧ (∀ target c' res,
           Dial None target (DialOK c' res) out.2
           = ((res, None),
              emit [EvSetCloseHandler c'; EvSetPongHandler c']
                (set_conn (Some c') (emit [EvDialContext target] out.2))))
  | None =>
      out.1 = (-1, None, Some (TransportError err))
      ∧ conn (adapter out.2) = Some c
  end.
Proof.
  intros Hc out. unfold out, Read. rewrite Hc. simpl.
  destruct (closeCode err) as [ceCode|]; simpl.
  - repeat split. 
  - split; [done|]. by rewrite handled_conn.
Qed.

(** A read on [two_pending] that ends with close code 1001. *)
Lemma Read_transport_failure_witness :
  conn (adapter two_pending) = Some 1%nat
  ∧ (Read None
       (ReadOutcome [InClose 1001 "going away"] 0 None
          (Some (LibError "websocket: close 1001 (going away)" (Some 1001))))
       two_pending).1
    = (-1, None,
       Some (WebsocketCloseError 1001 "websocket: close 1001 (going away)"
               (Lib (LibError "websocket: close 1001 (going away)"
                       (Some 1001))))).
Proof.
  assert (H1 : conn (adapter two_pending) = Some 1%nat) by reflexivity.
  exact (conj H1
           (proj1 (Read_transport_failure two_pending 1%nat
                     [InClose 1001 "going away"] 0 None
                     (LibError "websocket: close 1001 (going away)"
                        (Some 1001)) H1))).
Defined.

(** C9. Whenever [Read] returns an error, the message type it returns is
    -1, which is neither [Text] nor [Binary], and the payload is nil. *)
Theorem Read_error_sentinel
    (ctx : context) (rm : read_outcome) (w : world)
    (t : MessageType) (p : option (list Byte.byte)) (err : error) :
  (Read ctx rm w).1 = (t, p, Some err) →
  t = -1 ∧ p = None ∧ valid_MessageType t = false.
Proof.
  unfold Read.
  destruct ctx as [e|]; [by intros [= <- <- _]|].
  destruct (conn (adapter w)) as [c|]; [|by intros [= <- <- _]].
  destruct (rm_err rm) as [e|]; [|by intros [= _ _ ?]].
  destruct (closeCode e); by intros [= <- <- _].
Qed.

(** A read on [dialed] that fails with a plain transport error. *)
Lemma Read_error_sentinel_witness :
  (Read None (ReadOutcome [] Text None (Some (LibError "EOF" None))) dialed).1
  = (-1, None, Some (Lib (LibError "EOF" None)))
  ∧ -1 = -1 ∧ (None : option (list Byte.byte)) = None
  ∧ valid_MessageType (-1) = false.
Proof.
  assert (H1 : (Read None (ReadOutcome [] Text None
                             (Some (LibError "EOF" None))) dialed).1
               = (-1, None, Some (Lib (LibError "EOF" None))))
    by reflexivity.
  exact (conj H1 (Read_error_sentinel _ _ _ _ _ _ H1)).
Defined.

(** ** Close *)

(** C5. On a bound adapter [Close] always clears the connection and returns
    whatever the transmission of the close frame returned.  In the log the
    transmission comes first, then the events of the notification scan,
    then the clearing of the connection.  When a queued caller is waiting,
    the scan discards those queued before the first such caller and hands
    it the close error, between the transmission and the clearing, and
    that caller returns the close error; when nobody queued is waiting,
    the scan discards the whole buffer in between. *)
Theorem Close_unbinds_after_notifying
    (w : world) (c : Conn) (ctx : context) (code : StatusCode)
    (reason : string) (write : option lib_error) :
  conn (adapter w) = Some c →
  let out := Close ctx code reason write w in
  let closeErr := WebsocketCloseError code reason
                    (Errorf "client closed the connection") in
  let r := propagateToAllActiveListener (listeners w) (Some closeErr)
             (chans w) in
  out.1 = Lib <$> write
  ∧ conn (adapter out.2) = None
  ∧ log out.2
    = log w ++ [EvWriteControl c (CloseFrame code reason)] ++ scan_log r
      ++ [EvSetConn None]
  ∧ Forall (λ e, (∃ l, e = EvNotify l (Some closeErr)) ∨ (∃ l, e = EvDiscard l))
           (scan_log r)
  ∧ listeners out.2 = scan_left r
  ∧ chans out.2 = scan_chans r
  ∧ (∀ skipped winner rest,
       listeners w = skipped ++ winner :: rest →
       Forall (λ l, waiting (chans w) l = false) skipped →
       waiting (chans w) winner = true →
       log out.2
       = log w ++ [EvWriteControl c (CloseFrame code reason)]
         ++ map EvDiscard skipped ++ [EvNotify winner (Some closeErr)]
         ++ [EvSetConn None]
       ∧ chans out.2 = <[winner := Received (Some closeErr)]> (chans w)
       ∧ listeners out.2 = rest
       ∧ ∀ o ctx',
           Ping_step o (Goroutine ctx' (PingParked winner)) out.2
           = Some (PingReturn (Some closeErr),
                   set_chans (<[winner := NoReceiver]> (chans out.2)) out.2))
  ∧ (Forall (λ l, waiting (chans w) l = false) (listeners w) →
     log out.2
     = log w ++ [EvWriteControl c (CloseFrame code reason)]
       ++ map EvDiscard (listeners w) ++ [EvSetConn None]
     ∧ chans out.2 = chans w
     ∧ listeners out.2 = []).
Proof.
  intros Hc out closeErr r.
  assert (Hlog : log out.2
                 = log w ++ [EvWriteControl c (CloseFrame code reason)]
                   ++ scan_log r ++ [EvSetConn None]
                 ∧ listeners out.2 = scan_left r
                 ∧ chans out.2 = scan_chans r).
  { unfold out, Close. rewrite Hc. simpl. by rewrite <- !app_assoc. }
  destruct Hlog as (Hlog & Hleft & Hchans).
  split; [unfold out, Close; by rewrite Hc|].
  split; [unfold out, Close; by rewrite Hc|].
  split; [done|]. split; [apply all_log_shape|].
  split; [done|]. split; [done|]. split.
  - intros skipped winner rest Hq Hskip Hwin.
    assert (Hr : r = Scan rest (<[winner := Received (Some closeErr)]> (chans w))
                       (map EvDiscard skipped
                          ++ [EvNotify winner (Some closeErr)])).
    { unfold r.
      by rewrite Hq, (all_skips _ _ _ _ Hskip), (all_delivers _ _ _ _ Hwin). }
    rewrite Hlog, Hleft, Hchans, Hr. simpl.
    split; [by rewrite <- !app_assoc|]. split; [done|]. split; [done|].
    intros o ctx'. unfold Ping_step. simpl.
    rewrite Hchans, Hr. simpl. by rewrite lookup_insert_eq.
  - intros Hnobody.
    assert (Hr : r = Scan [] (chans w) (map EvDiscard (listeners w)))
      by (unfold r; by rewrite (all_nobody _ _ _ Hnobody)).
    by rewrite Hlog, Hleft, Hchans, Hr.
Qed.

(** [Close] on [abandoned_then_two] with a failing transmission: the
    abandoned channel is discarded and the first waiting caller gets the
    close error, after the transmission and before the clearing. *)
Lemma Close_unbinds_after_notifying_witness :
  let closeErr := WebsocketCloseError 1001 "bye"
                    (Errorf "client closed the connection") in
  let out := Close None 1001 "bye" (Some broken_pipe) abandoned_then_two in
  conn (adapter abandoned_then_two) = Some 1%nat
  ∧ out.1 = Some (Lib broken_pipe)
  ∧ conn (adapter out.2) = None
  ∧ log out.2
    = log abandoned_then_two
      ++ [EvWriteControl 1%nat (CloseFrame 1001 "bye"); EvDiscard 0%nat;
          EvNotify 1%nat (Some closeErr); EvSetConn None]
  ∧ chans out.2 !! 1%nat = Some (Received (Some closeErr)).
Proof.
  assert (H1 : conn (adapter abandoned_then_two) = Some 1%nat)
    by reflexivity.
  destruct (Close_unbinds_after_notifying abandoned_then_two 1%nat None 1001
              "bye" (Some broken_pipe) H1)
    as (Hr & Hu & _ & _ & _ & _ & Hserved & _).
  destruct (Hserved [0%nat] 1%nat [2%nat]) as (Hlog & Hchans & _).
  { by vm_compute. }
  { repeat constructor. }
  { by vm_compute. }
  refine (conj H1 (conj Hr (conj Hu (conj Hlog _)))).
  rewrite Hchans. apply lookup_insert_eq.
Defined.

(** ** Ping *)

(** C8. With a context that is done at entry, [Ping] returns the error of
    the context and leaves the world as it was: no reply channel is made or
    registered, no frame is written, nobody is parked.  Under any
    interleaving the goroutine emits nothing and never leaves the entry
    except to return that error. *)
Theorem Ping_done_context (e : ctx_error) (o : ping_oracle) (w : world) :
  Ping (Some e) o w
  = (Goroutine (Some e) (PingReturn (Some (ContextError e))), w)
  ∧ Ping_step o (Goroutine (Some e) PingEntry) w
    = Some (PingReturn (Some (ContextError e)), w)
  ∧ (∀ tr g w',
       exec (Goroutine (Some e) PingEntry) w tr g w' →
       tr = []
       ∧ (g_pc g = PingEntry ∨ g_pc g = PingReturn (Some (ContextError e)))).
Proof.
  repeat split.
  - by eapply exec_done_context.
  - by eapply exec_done_context.
Qed.

(** C7. The buffer of [pingRequests] is made with capacity 10 and no action
    changes the capacity or lets the buffer outgrow it.  While the buffer
    is full, a goroutine at the registration cannot move if its context is
    open, and returns the error of its context, leaving the world as it
    was, once the context is done; a call of [Ping] stops at the
    registration with the buffer untouched.  As soon as there is room the
    registration appends the reply channel. *)
Theorem registration_blocks_at_capacity
    (w : world) (c : Conn) (pong : chan) (o : ping_oracle) (ctx : context)
    (d : option Dialer) (h : option Header) (a : action) :
  length (listeners w) = cap (pingRequests (adapter w)) →
  cap (pingRequests (NewGorillaWebsocketConnectionAdapter d h)) = 10%nat
  ∧ cap (pingRequests (adapter (act a w))) = cap (pingRequests (adapter w))
  ∧ within_capacity (act a w)
  ∧ match ctx with
    | None => Ping_step o (Goroutine None (PingRegister c pong)) w = None
    | Some e =>
        Ping_step o (Goroutine (Some e) (PingRegister c pong)) w
        = Some (PingReturn (Some (ContextError e)), w)
    end
  ∧ (∀ e,
       let gw := cancel e (Goroutine None (PingRegister c pong)) w in
       gw.2 = w
       ∧ Ping_step o gw.1 gw.2
         = Some (PingReturn (Some (ContextError e)), w))
  ∧ (conn (adapter w) = Some c →
       (Ping None o w).1 = Goroutine None (PingRegister c (next_chan w))
       ∧ adapter (Ping None o w).2 = adapter w)
  ∧ (∀ w',
       (length (listeners w') < cap (pingRequests (adapter w')))%nat →
       Ping_step o (Goroutine None (PingRegister c pong)) w'
       = Some (PingSend c pong,
               emit [EvEnqueue pong]
                 (set_listeners (listeners w' ++ [pong]) w'))).
Proof.
  intros Hfull.
  assert (Hroom : (length (listeners w) <? cap (pingRequests (adapter w)))%nat
                  = false) by (apply Nat.ltb_ge; lia).
  split; [done|]. split; [apply act_cap|].
  split; [apply act_within_capacity; unfold within_capacity; lia|].
  split; [|split; [|split]].
  - unfold Ping_step. simpl. rewrite Hroom. by destruct ctx.
  - intros e. simpl. split; [done|].
    unfold Ping_step. simpl. by rewrite Hroom.
  - intros Hc. ping_run. rewrite Hc.
    cbn [Ping_run Ping_step g_pc g_ctx].
    change (listeners (World _ _ _ _)) with (listeners w).
    change (cap (pingRequests (adapter (World _ _ _ _))))
      with (cap (pingRequests (adapter w))).
    by rewrite Hroom.
  - intros w' Hw'. apply Nat.ltb_lt in Hw'.
    unfold Ping_step. simpl. by rewrite Hw'.
Qed.

(** An eleventh caller on [full]. *)
Lemma registration_blocks_at_capacity_witness :
  length (listeners full) = cap (pingRequests (adapter full))
  ∧ Ping_step pong_ok (Goroutine None (PingRegister 1%nat 10%nat)) full = None
  ∧ (Ping None pong_ok full).1 = Goroutine None (PingRegister 1%nat 10%nat).
Proof.
  assert (H1 : length (listeners full) = cap (pingRequests (adapter full)))
    by (vm_compute; reflexivity).
  destruct (registration_blocks_at_capacity full 1%nat 10%nat pong_ok None
              None None (APing pong_ok (Goroutine None PingEntry)) H1)
    as (_ & _ & _ & Hb & _ & Hp & _).
  refine (conj H1 (conj Hb _)).
  exact (proj1 (Hp eq_refl)).
Defined.




(** C10. When the transmission of the ping frame fails, [Ping] returns the
    wrapped error at once and leaves its reply channel in the buffer, which
    is one longer than before; nobody waits on that channel.  Wherever the
    goroutine stands when the transmission fails, that transition touches
    nothing but the log.  No action without a scan takes the channel out,
    and a scan of either kind that reaches it discards it and carries on
    with the rest. *)
Theorem failed_ping_leaves_slot
    (w : world) (c : Conn) (o : ping_oracle) (err : lib_error) :
  conn (adapter w) = Some c →
  (length (listeners w) < cap (pingRequests (adapter w)))%nat →
  write_control o = Some err →
  let pong := next_chan w in
  let out := Ping None o w in
  out.1 = Goroutine None (PingReturn (Some (ErrorfW "ping failed: " err)))
  ∧ listeners out.2 = listeners w ++ [pong]
  ∧ length (listeners out.2) = S (length (listeners w))
  ∧ log out.2
    = log w ++ [EvMake pong; EvEnqueue pong; EvWriteControl c PingFrame]
  ∧ chans out.2 !! pong = Some NoReceiver
  ∧ waiting (chans out.2) pong = false
  ∧ (∀ ctx c' pong' w',
       Ping_step o (Goroutine ctx (PingSend c' pong')) w'
       = Some (PingReturn (Some (ErrorfW "ping failed: " err)),
               emit [EvWriteControl c' PingFrame] w'))
  ∧ (∀ w' a,
       pong ∈ listeners w' → scan_free a = true → pong ∈ listeners (act a w'))
  ∧ (∀ notification h skipped rest,
       Forall (λ x, waiting h x = false) skipped →
       waiting h pong = false →
       propagateToFirstActiveListener (skipped ++ pong :: rest) notification h
       = (let '(b, r) :=
            propagateToFirstActiveListener rest notification h in
          (b, Scan (scan_left r) (scan_chans r)
                   (map EvDiscard (skipped ++ [pong]) ++ scan_log r)))
       ∧ propagateToAllActiveListener (skipped ++ pong :: rest) notification h
         = (let r := propagateToAllActiveListener rest notification h in
            Scan (scan_left r) (scan_chans r)
                 (map EvDiscard (skipped ++ [pong]) ++ scan_log r))).
Proof.
  intros Hc Hroom Ho pong out. apply Nat.ltb_lt in Hroom.
  assert (Hout : out
    = (Goroutine None (PingReturn (Some (ErrorfW "ping failed: " err))),
       emit [EvWriteControl c PingFrame]
         (emit [EvEnqueue pong]
            (set_listeners (listeners w ++ [pong])
               (World (adapter w) (<[pong := NoReceiver]> (chans w))
                      (S pong) (log w ++ [EvMake pong])))))).
  { unfold out. ping_run. rewrite Hc.
    cbn [Ping_run Ping_step g_pc g_ctx].
    change (listeners (World _ _ _ _)) with (listeners w).
    change (cap (pingRequests (adapter (World _ _ _ _))))
      with (cap (pingRequests (adapter w))).
    rewrite Hroom. cbn [Ping_run Ping_step g_pc g_ctx].
    by rewrite Ho. }
  rewrite Hout. cbn [fst snd].
  split; [done|]. split; [done|].
  split.
  { change (length (listeners w ++ [pong]) = S (length (listeners w))).
    rewrite length_app. simpl. lia. }
  split.
  { change (((log w ++ [EvMake pong]) ++ [EvEnqueue pong])
              ++ [EvWriteControl c PingFrame]
            = log w ++ [EvMake pong; EvEnqueue pong;
                        EvWriteControl c PingFrame]).
    by rewrite <- !app_assoc. }
  split; [apply lookup_insert_eq|].
  split.
  { unfold waiting.
    change (match <[pong := NoReceiver]> (chans w) !! pong with
            | Some Receiving => true
            | _ => false
            end = false).
    by rewrite lookup_insert_eq. }
  split; [intros ctx c' pong' w'; unfold Ping_step; simpl; by rewrite Ho|].
  split; [intros w' a Hin Hfree; by apply act_scan_free_keeps|].
  intros notification h skipped rest Hskip Hpong.
  assert (Hall : Forall (λ x, waiting h x = false) (skipped ++ [pong])).
  { apply Forall_app. split; [done|]. by constructor. }
  replace (skipped ++ pong :: rest) with ((skipped ++ [pong]) ++ rest)
    by (by rewrite <- app_assoc).
  split; [by apply first_skips|by apply all_skips].
Qed.

(** [Ping] on [dialed] with a transmission that fails. *)
Lemma failed_ping_leaves_slot_witness :
  conn (adapter dialed) = Some 1%nat
  ∧ (length (listeners dialed) < cap (pingRequests (adapter dialed)))%nat
  ∧ write_control ping_fails = Some broken_pipe
  ∧ (Ping None ping_fails dialed).1
    = Goroutine None (PingReturn (Some (ErrorfW "ping failed: " broken_pipe)))
  ∧ listeners (Ping None ping_fails dialed).2 = [0%nat].
Proof.
  assert (H1 : conn (adapter dialed) = Some 1%nat) by reflexivity.
  assert (H2 : (length (listeners dialed)
                < cap (pingRequests (adapter dialed)))%nat)
    by (vm_compute; lia).
  assert (H3 : write_control ping_fails = Some broken_pipe) by reflexivity.
  destruct (failed_ping_leaves_slot dialed 1%nat ping_fails broken_pipe
              H1 H2 H3) as (Hr & Hl & _).
  exact (conj H1 (conj H2 (conj H3 (conj Hr Hl)))).
Defined.

End Claims.

(** * Further properties *)

Module MoreFacts.
Import Gorilla Facts.
Local Open Scope list_scope.

(** ** The two scans side by side *)

Lemma all_as_first q notification chans :
  propagateToAllActiveListener q notification chans
  = (propagateToFirstActiveListener q notification chans).2.
Proof.
  induction q as [|c q IH]; simpl; [done|].
  destruct (try_send chans c notification); [done|].
  rewrite IH.
  by destruct (propagateToFirstActiveListener q notification chans).
Qed.

Lemma all_serves_one_waiting q notification chans :
  serves_one_waiting q notification chans
    (propagateToAllActiveListener q notification chans).
Proof.
  unfold serves_one_waiting.
  induction q as [|c q IH]; simpl; [by left|].
  destruct (waiting chans c) eqn:Hw.
  - rewrite (try_send_waiting _ _ _ Hw). simpl. right. exists c.
    split; [apply list_elem_of_here|done].
  - rewrite (try_send_not_waiting _ _ _ Hw). simpl.
    destruct IH as [IH|(winner & Hin & Hwin & IH)]; [by left|].
    right. exists winner. split; [by apply list_elem_of_further|done].
Qed.

(** ** A call of Ping that gets as far as its last select *)

(** The world in which a caller of [Ping] on [w], bound to [c], is parked. *)
Lemma Ping_parks w c o :
  conn (adapter w) = Some c →
  (length (listeners w) < cap (pingRequests (adapter w)))%nat →
  write_control o = None →
  Ping None o w
  = (Goroutine None (PingParked (next_chan w)),
     set_chans
       (<[next_chan w := Receiving]>
          (<[next_chan w := NoReceiver]> (chans w)))
       (emit [EvWriteControl c PingFrame]
          (emit [EvEnqueue (next_chan w)]
             (set_listeners (listeners w ++ [next_chan w])
                (World (adapter w) (<[next_chan w := NoReceiver]> (chans w))
                       (S (next_chan w))
                       (log w ++ [EvMake (next_chan w)])))))).
Proof.
  intros Hc Hroom Ho. apply Nat.ltb_lt in Hroom.
  unfold Ping. cbn [Ping_run Ping_step g_pc g_ctx]. rewrite Hc.
  cbn [Ping_run Ping_step g_pc g_ctx].
  change (listeners (World _ _ _ _)) with (listeners w).
  change (cap (pingRequests (adapter (World _ _ _ _))))
    with (cap (pingRequests (adapter w))).
  rewrite Hroom. cbn [Ping_run Ping_step g_pc g_ctx]. rewrite Ho.
  cbn [Ping_run Ping_step g_pc g_ctx]. simpl.
  by rewrite lookup_insert_eq.
Qed.

(** ** Fields that no action writes *)

Lemma handle_config w f :
  dialer (adapter (handle w f)) = dialer (adapter w)
  ∧ requestHeader (adapter (handle w f)) = requestHeader (adapter w).
Proof.
  destruct f as [appData|code text]; simpl; [|done].
  unfold pongHandler.
  by destruct (propagateToFirstActiveListener _ _ _) as [b r].
Qed.

Lemma handled_config fs w :
  dialer (adapter (foldl handle w fs)) = dialer (adapter w)
  ∧ requestHeader (adapter (foldl handle w fs)) = requestHeader (adapter w).
Proof.
  revert w. induction fs as [|f fs IH]; intros w; simpl; [done|].
  destruct (IH (handle w f)) as [-> ->]. apply handle_config.
Qed.

Lemma Ping_step_config o g w pc w' :
  Ping_step o g w = Some (pc, w') →
  dialer (adapter w') = dialer (adapter w)
  ∧ requestHeader (adapter w') = requestHeader (adapter w).
Proof.
  unfold Ping_step. intros Hstep.
  destruct (g_pc g) as [| |c pong|c pong|pong|pong|r].
  - by destruct (g_ctx g); injection Hstep as <- <-.
  - by destruct (conn (adapter w)); injection Hstep as <- <-.
  - destruct (_ <? _)%nat, (g_ctx g); try destruct (pick_done o);
      try done; by injection Hstep as <- <-.
  - by destruct (write_control o); injection Hstep as <- <-.
  - by destruct (g_ctx g); injection Hstep as <- <-.
  - destruct (chans w !! pong) as [[]|]; try done.
    by injection Hstep as <- <-.
  - done.
Qed.

Lemma act_config a w :
  dialer (adapter (act a w)) = dialer (adapter w)
  ∧ requestHeader (adapter (act a w)) = requestHeader (adapter w).
Proof.
  destruct a as [ctx target dial|ctx code reason write|ctx msgType msg write
                |ctx rm|o g|e g]; simpl.
  - unfold Dial. destruct ctx; [done|].
    destruct (conn (adapter w)); [done|]. by destruct dial.
  - unfold Close. by destruct (conn (adapter w)).
  - unfold Write. destruct ctx; [done|]. by destruct (conn (adapter w)).
  - unfold Read. destruct ctx; [done|].
    destruct (conn (adapter w)) as [c|]; [|done].
    pose proof (handled_config (rm_handled rm) (emit [EvReadMessage c] w))
      as [Hd Hh].
    by destruct (rm_err rm) as [err|]; [destruct (closeCode err)|].
  - destruct (Ping_step o g w) as [[pc w']|] eqn:Hstep; [|done].
    by apply Ping_step_config in Hstep.
  - by rewrite cancel_buffer.
Qed.

(** ** Runs of actions *)

Lemma run_app acts a w : run (acts ++ [a]) w = act a (run acts w).
Proof. unfold run. by rewrite foldl_app. Qed.

Lemma run_invariants acts w :
  cap (pingRequests (adapter (run acts w))) = cap (pingRequests (adapter w))
  ∧ dialer (adapter (run acts w)) = dialer (adapter w)
  ∧ requestHeader (adapter (run acts w)) = requestHeader (adapter w)
  ∧ (within_capacity w → within_capacity (run acts w)).
Proof.
  induction acts as [|a acts IH] using rev_ind; [done|].
  rewrite run_app. destruct IH as (Hcap & Hd & Hh & Hw).
  destruct (act_config a (run acts w)) as [Hd' Hh'].
  rewrite act_cap, Hd', Hh'. repeat split; try done.
  intros H. by apply act_within_capacity, Hw.
Qed.

(** ** Deliveries *)

Lemma reply_ping_result n : reply n → ping_result n.
Proof. by destruct n as [[]|]. Qed.

Lemma delivers_refl h : delivers h h [].
Proof. intros c n Hn. by left. Qed.

Lemma delivers_trans h h' h'' evs evs' :
  delivers h h' evs → delivers h' h'' evs' → delivers h h'' (evs ++ evs').
Proof.
  intros H1 H2 c n Hn.
  destruct (H2 c n Hn) as [Hn'|[Hr Hin]].
  - destruct (H1 c n Hn') as [?|[Hr Hin]]; [by left|].
    right. split; [done|]. apply elem_of_app. by left.
  - right. split; [done|]. apply elem_of_app. by right.
Qed.

Lemma extends_refl w : extends w w [].
Proof. split; [by rewrite app_nil_r|apply delivers_refl]. Qed.

Lemma extends_trans w w' w'' evs evs' :
  extends w w' evs → extends w' w'' evs' → extends w w'' (evs ++ evs').
Proof.
  intros [Hl Hd] [Hl' Hd']. split.
  - by rewrite Hl', Hl, app_assoc.
  - by eapply delivers_trans.
Qed.

(** A channel that was not waiting holds after a scan what it held. *)
Lemma all_delivers_reply q notification chans :
  reply notification →
  delivers chans
    (scan_chans (propagateToAllActiveListener q notification chans))
    (scan_log (propagateToAllActiveListener q notification chans)).
Proof.
  intros Hr. induction q as [|c q IH]; simpl; [apply delivers_refl|].
  unfold try_send. destruct (chans !! c) as [[]|] eqn:Hc; simpl.
  - intros c' n Hn. destruct (IH c' n Hn) as [?|[? Hin]]; [by left|].
    right. split; [done|]. by apply list_elem_of_further.
  - intros c' n Hn. destruct (decide (c = c')) as [->|Hne].
    + rewrite lookup_insert_eq in Hn. injection Hn as <-.
      right. split; [done|]. apply list_elem_of_here.
    + rewrite lookup_insert_ne in Hn by done. by left.
  - intros c' n Hn. destruct (IH c' n Hn) as [?|[? Hin]]; [by left|].
    right. split; [done|]. by apply list_elem_of_further.
  - intros c' n Hn. destruct (IH c' n Hn) as [?|[? Hin]]; [by left|].
    right. split; [done|]. by apply list_elem_of_further.
Qed.

Lemma apply_all_extends q notification w :
  reply notification →
  extends w
    (apply_scan (propagateToAllActiveListener q notification (chans w)) w)
    (scan_log (propagateToAllActiveListener q notification (chans w))).
Proof. intros Hr. split; [done|]. by apply all_delivers_reply. Qed.

Lemma handle_extends w f : ∃ evs, extends w (handle w f) evs.
Proof.
  destruct f as [appData|code text]; simpl.
  - unfold pongHandler.
    pose proof (apply_all_extends (listeners w) None w I) as H.
    rewrite all_as_first in H.
    destruct (propagateToFirstActiveListener _ _ _) as [b r]. by eexists.
  - eexists. apply apply_all_extends. simpl. by right.
Qed.

Lemma handled_extends fs w : ∃ evs, extends w (foldl handle w fs) evs.
Proof.
  revert w. induction fs as [|f fs IH]; intros w; simpl.
  - eexists. apply extends_refl.
  - destruct (handle_extends w f) as [evs H1].
    destruct (IH (handle w f)) as [evs' H2].
    eexists. by eapply extends_trans.
Qed.

Lemma emit_extends evs w : extends w (emit evs w) evs.
Proof. split; [done|]. intros c n Hn. by left. Qed.

Lemma set_conn_extends c w : extends w (set_conn c w) [EvSetConn c].
Proof. split; [done|]. intros c' n Hn. by left. Qed.

(** A transition of [Ping] appends to the log and puts no value in any
    reply channel. *)
Lemma Ping_step_extends o g w pc w' :
  Ping_step o g w = Some (pc, w') →
  log w' = log w ++ emitted w w'
  ∧ ∀ c n, chans w' !! c = Some (Received n) → chans w !! c = Some (Received n).
Proof.
  unfold Ping_step. intros Hstep.
  destruct (g_pc g) as [| |c pong|c pong|pong|pong|r].
  - destruct (g_ctx g); injection Hstep as <- <-;
      by rewrite emitted_same, app_nil_r.
  - destruct (conn (adapter w)); injection Hstep as <- <-.
    + rewrite (emitted_app _ _ [EvMake (next_chan w)]) by done.
      split; [done|]. intros c' n. simpl.
      destruct (decide (next_chan w = c')) as [->|Hne].
      * by rewrite lookup_insert_eq.
      * by rewrite lookup_insert_ne.
    + by rewrite emitted_same, app_nil_r.
  - assert (Henq : emitted w
                     (emit [EvEnqueue pong]
                        (set_listeners (listeners w ++ [pong]) w))
                   = [EvEnqueue pong]) by by apply emitted_app.
    destruct (_ <? _)%nat, (g_ctx g); try destruct (pick_done o);
      try done; injection Hstep as <- <-;
      rewrite ?Henq, ?emitted_same, ?app_nil_r by done; done.
  - rewrite (emitted_app _ _ [EvWriteControl c PingFrame])
      by (by destruct (write_control o); injection Hstep as <- <-).
    by destruct (write_control o); injection Hstep as <- <-.
  - destruct (g_ctx g); injection Hstep as <- <-;
      rewrite emitted_same, app_nil_r by done; split; try done.
    intros c' n. simpl. destruct (decide (pong = c')) as [->|Hne].
    + by rewrite lookup_insert_eq.
    + by rewrite lookup_insert_ne.
  - destruct (chans w !! pong) as [[]|] eqn:Hp; try done.
    injection Hstep as <- <-.
    rewrite emitted_same, app_nil_r by done. split; [done|].
    intros c' n. simpl. destruct (decide (pong = c')) as [->|Hne].
    + by rewrite lookup_insert_eq.
    + by rewrite lookup_insert_ne.
  - done.
Qed.

Lemma cancel_extends e g w : extends w (cancel e g w).2 [].
Proof.
  unfold cancel. destruct (g_ctx g); [apply extends_refl|].
  destruct (g_pc g) as [| |c pong|c pong|pong|pong|r];
    try apply extends_refl.
  destruct (waiting (chans w) pong); [|apply extends_refl].
  split; [simpl; by rewrite app_nil_r|].
  intros c n. simpl. destruct (decide (pong = c)) as [->|Hne].
  - by rewrite lookup_insert_eq.
  - rewrite lookup_insert_ne by done. by left.
Qed.

Lemma act_extends a w : ∃ evs, extends w (act a w) evs.
Proof.
  destruct a as [ctx target dial|ctx code reason write|ctx msgType msg write
                |ctx rm|o g|e g]; simpl.
  - unfold Dial. destruct ctx; [eexists; apply extends_refl|].
    destruct (conn (adapter w)); [eexists; apply extends_refl|].
    destruct dial; simpl.
    + eexists. eapply extends_trans; [|apply emit_extends].
      eapply extends_trans; [apply emit_extends|apply set_conn_extends].
    + eexists. apply emit_extends.
  - unfold Close. destruct (conn (adapter w)) as [c|];
      [|eexists; apply extends_refl]. simpl.
    eexists. eapply extends_trans; [|apply set_conn_extends].
    eapply extends_trans; [apply emit_extends|].
    apply (apply_all_extends (listeners w) _
             (emit [EvWriteControl c (CloseFrame code reason)] w)).
    simpl. by left.
  - unfold Write. destruct ctx; [eexists; apply extends_refl|].
    destruct (conn (adapter w)); [|eexists; apply extends_refl].
    eexists. apply emit_extends.
  - unfold Read. destruct ctx; [eexists; apply extends_refl|].
    destruct (conn (adapter w)) as [c|]; [|eexists; apply extends_refl].
    destruct (handled_extends (rm_handled rm) (emit [EvReadMessage c] w))
      as [evs Hevs].
    pose proof (extends_trans _ _ _ _ _ (emit_extends [EvReadMessage c] w)
                  Hevs) as H.
    destruct (rm_err rm) as [err|]; [destruct (closeCode err)|]; simpl;
      try (by eexists).
    eexists. eapply extends_trans; [exact H|apply set_conn_extends].
  - destruct (Ping_step o g w) as [[pc w']|] eqn:Hstep;
      [|eexists; apply extends_refl].
    apply Ping_step_extends in Hstep as [Hl Hd].
    eexists. split; [exact Hl|]. intros c n Hn. left. by apply Hd.
  - eexists. apply cancel_extends.
Qed.

(** Membership in what the log gained survives further gains. *)
Lemma answered_later pc tr h ext evs :
  answered pc tr h ext → answered pc tr h (ext ++ evs).
Proof.
  destruct pc as [| |c pong|c pong|pong|pong|r]; simpl; try done.
  1-4: intros H n Hn; destruct (H n Hn) as [? ?]; split; [done|];
       apply elem_of_app; by left.
  intros [Hr H]. split; [done|]. intros Hrep.
  destruct (H Hrep) as (c & pong & -> & Hin). exists c, pong.
  split; [done|]. apply elem_of_app. by left.
Qed.

(** The invariant of a goroutine inside [Ping], under any interleaving. *)
Lemma exec_answered ctx w0 tr g w :
  exec (Goroutine ctx PingEntry) w0 tr g w →
  ∃ ext, log w = log w0 ++ ext ∧ answered (g_pc g) tr (chans w) ext.
Proof.
  induction 1 as [|tr g w o pc w' He [ext [Hlog IH]] Hstep
                  |tr g w e He [ext [Hlog IH]]
                  |tr g w a He [ext [Hlog IH]]].
  - exists []. by rewrite app_nil_r.
  - pose proof (exec_own_trace _ _ _ _ _ He) as Htr.
    destruct (Ping_step_extends _ _ _ _ _ Hstep) as [Hl Hd].
    exists (ext ++ emitted w w'). split; [by rewrite Hl, Hlog, app_assoc|].
    unfold Ping_step in Hstep. cbn [g_pc g_ctx].
    destruct (g_pc g) as [| |c pong|c pong|pong|pong|r]; simpl in IH, Htr.
    + by destruct (g_ctx g); injection Hstep as <- <-.
    + destruct (conn (adapter w)); injection Hstep as <- <-; [|done].
      simpl. intros n. by rewrite lookup_insert_eq.
    + destruct (_ <? _)%nat, (g_ctx g); try destruct (pick_done o);
        try done; injection Hstep as <- <-; try done;
        by apply (answered_later (PingSend c pong)).
    + destruct (write_control o); injection Hstep as <- <-; [done|].
      by apply (answered_later (PingSelect pong)).
    + destruct (g_ctx g); injection Hstep as <- <-; [done|].
      simpl. intros n. by rewrite lookup_insert_eq.
    + destruct (chans w !! pong) as [[| |n]|] eqn:Hp; try done.
      injection Hstep as <- <-. destruct (IH n eq_refl) as [Hr Hin].
      rewrite emitted_same, !app_nil_r by done. simpl.
      split; [by apply reply_ping_result|]. intros _.
      destruct Htr as [c ->]. by exists c, pong.
    + done.
  - destruct (cancel_extends e g w) as [Hl Hd]. exists ext.
    split; [by rewrite Hl, app_nil_r|].
    unfold cancel in *. destruct (g_ctx g); [done|].
    destruct (g_pc g) as [| |c pong|c pong|pong|pong|r]; try done.
    destruct (waiting (chans w) pong); [done|]. done.
  - destruct (act_extends a w) as [evs [Hl Hd]]. exists (ext ++ evs).
    split; [by rewrite Hl, Hlog, app_assoc|].
    destruct (g_pc g) as [| |c pong|c pong|pong|pong|r]; simpl in *;
      try done.
    1-4: intros n Hn; destruct (Hd pong n Hn) as [Hn'|[Hr Hin]];
         [destruct (IH n Hn') as [? ?]; split; [done|];
          apply elem_of_app; by left
         |split; [done|]; apply elem_of_app; by right].
    exact (answered_later (PingReturn r) tr (chans (act a w)) ext evs IH).
Qed.

(** The caller of [Ping] on [dialed], parked, served by a pong that a
    reader dispatched, and back from its call. *)
Lemma exec_pinging_answered :
  ∃ w,
    exec (Goroutine None PingEntry) dialed
         [EvMake 0%nat; EvEnqueue 0%nat; EvWriteControl 1%nat PingFrame]
         (Goroutine None (PingReturn None)) w.
Proof.
  assert (E5 : exec (Goroutine None PingEntry) dialed
                 [EvMake 0%nat; EvEnqueue 0%nat;
                  EvWriteControl 1%nat PingFrame]
                 (pinging 5).1 (pinging 5).2).
  { eapply (exec_own_eq _ _ _ _ _ pong_ok); [exact exec_pinging_sent|..];
      by vm_compute. }
  eexists.
  eapply (exec_own_eq _ _ _ _ _ pong_ok);
    [exact (exec_env _ _ _ _ _ stray_pong E5)|..]; by vm_compute.
Qed.

(** ** The loop of a scan, pass by pass *)

(** A pass that ends with [continue] has discarded the head of the buffer;
    carried on without interruption, the loop does what the scan of the
    whole buffer does. *)
Lemma scan_iteration_continue notification w w1 :
  scan_iteration notification w = (Continue, w1) →
  (propagateToFirstActiveListener (listeners w) notification (chans w)).1
  = (propagateToFirstActiveListener (listeners w1) notification
       (chans w1)).1
  ∧ apply_scan
      (propagateToFirstActiveListener (listeners w) notification
         (chans w)).2 w
    = apply_scan
        (propagateToFirstActiveListener (listeners w1) notification
           (chans w1)).2 w1.
Proof.
  unfold scan_iteration. destruct (listeners w) as [|l rest] eqn:Hq; [done|].
  change (chans (set_listeners rest w)) with (chans w).
  simpl. destruct (try_send (chans w) l notification); [done|].
  intros [= <-].
  change (listeners (emit _ (set_listeners rest w))) with rest.
  change (chans (emit _ (set_listeners rest w))) with (chans w).
  destruct (propagateToFirstActiveListener rest notification (chans w))
    as [b r].
  split; [done|]. unfold apply_scan, emit, set_chans, set_listeners. simpl.
  f_equal. by rewrite <- app_assoc.
Qed.

(** A pass that returns ends the scan with the result of the scan of the
    whole buffer. *)
Lemma scan_iteration_return notification w found w1 :
  scan_iteration notification w = (Return found, w1) →
  (propagateToFirstActiveListener (listeners w) notification (chans w)).1
  = found
  ∧ listeners w1
    = scan_left (propagateToFirstActiveListener (listeners w) notification
                   (chans w)).2
  ∧ chans w1
    = scan_chans (propagateToFirstActiveListener (listeners w) notification
                    (chans w)).2
  ∧ log w1
    = log w
      ++ scan_log (propagateToFirstActiveListener (listeners w) notification
                     (chans w)).2.
Proof.
  unfold scan_iteration. destruct (listeners w) as [|l rest] eqn:Hq.
  - intros [= <- <-]. simpl. by rewrite Hq, app_nil_r.
  - change (chans (set_listeners rest w)) with (chans w). simpl.
    destruct (try_send (chans w) l notification); [|done].
    by intros [= <- <-].
Qed.

End MoreFacts.

Module Extras.
Import Gorilla Facts MoreFacts.
Local Open Scope list_scope.

(** ** Scans *)

(** X1. The scan for the first active listener returns true exactly when
    some listener in the buffer is waiting. *)
Theorem first_result_iff_waiting
    (q : list chan) (notification : option error)
    (chans : gmap chan recv_state) :
  (propagateToFirstActiveListener q notification chans).1 = true
  ↔ ∃ c, c ∈ q ∧ waiting chans c = true.
Proof.
  induction q as [|c q IH]; simpl.
  - split; [done|]. intros (c & Hc & _). by apply elem_of_nil in Hc.
  - destruct (waiting chans c) eqn:Hw.
    + rewrite (try_send_waiting _ _ _ Hw). simpl. split; [|done].
      intros _. exists c. split; [apply list_elem_of_here|done].
    + rewrite (try_send_not_waiting _ _ _ Hw).
      destruct (propagateToFirstActiveListener q notification chans)
        as [b r]. simpl in *. rewrite IH. split.
      * intros (c' & Hc' & Hw'). exists c'.
        split; [by apply list_elem_of_further|done].
      * intros (c' & Hc' & Hw'). exists c'. split; [|done].
        apply elem_of_cons in Hc' as [->|Hc']; [congruence|done].
Qed.

(** X2. The scan for all active listeners does to the buffer, to the reply
    channels and to the log exactly what the scan for the first active
    listener does. *)
Theorem scans_agree
    (q : list chan) (notification : option error)
    (chans : gmap chan recv_state) :
  propagateToAllActiveListener q notification chans
  = (propagateToFirstActiveListener q notification chans).2.
Proof. apply all_as_first. Qed.

(** X4. Either scan changes the state of at most one reply channel, the
    channel of a listener of the buffer whose owner was waiting: that
    channel now holds the notification, every other one is as before. *)
Theorem scan_serves_one_waiting
    (q : list chan) (notification : option error)
    (chans : gmap chan recv_state) :
  serves_one_waiting q notification chans
    (propagateToFirstActiveListener q notification chans).2
  ∧ serves_one_waiting q notification chans
      (propagateToAllActiveListener q notification chans).
Proof.
  rewrite <- all_as_first. split; apply all_serves_one_waiting.
Qed.

(** ** Waiting, giving up, being served *)

(** X5. A pong that finds nobody waiting delivers nothing, returns nil and
    leaves the buffer empty and the reply channels as they were.  When the
    buffer was full and a caller stood blocked at its registration, the
    first receive of the scan lets that caller in; the scan then carries on
    over what was queued and over the newcomer, whose owner is not waiting
    yet, and discards both: the buffer still ends empty, and the caller
    goes on to write its frame with no reply channel registered. *)
Theorem pong_without_waiters_empties_buffer
    (w : world) (appData : string) (c : Conn) (pong : chan)
    (o : ping_oracle) (l : chan) (rest : list chan) :
  Forall (λ x, waiting (chans w) x = false) (listeners w) →
  let out := pongHandler appData w in
  (out.1 = None ∧ listeners out.2 = [] ∧ chans out.2 = chans w)
  ∧ (listeners w = l :: rest →
     length (listeners w) = cap (pingRequests (adapter w)) →
     waiting (chans w) pong = false →
     let g := Goroutine None (PingRegister c pong) in
     let received := scan_iteration None w in
     let admitted :=
       emit [EvEnqueue pong] (set_listeners (rest ++ [pong]) received.2) in
     let r := propagateToFirstActiveListener (listeners admitted) None
                (chans admitted) in
     Ping_step o g w = None
     ∧ received = (Continue, emit [EvDiscard l] (set_listeners rest w))
     ∧ Ping_step o g received.2 = Some (PingSend c pong, admitted)
     ∧ r = (false, Scan [] (chans w) (map EvDiscard (rest ++ [pong])))).
Proof.
  intros Hnobody out. split.
  { unfold out, pongHandler. by rewrite (first_nobody _ _ _ Hnobody). }
  intros Hq Hfull Hpong g received admitted r.
  assert (Hl : waiting (chans w) l = false).
  { rewrite Hq in Hnobody. by apply Forall_cons in Hnobody as [? _]. }
  assert (Hrest : Forall (λ x, waiting (chans w) x = false) (rest ++ [pong])).
  { rewrite Hq in Hnobody. apply Forall_cons in Hnobody as [_ Hrest].
    apply Forall_app. split; [done|]. by constructor. }
  assert (Hrec : received
                 = (Continue, emit [EvDiscard l] (set_listeners rest w))).
  { unfold received, scan_iteration. rewrite Hq.
    change (chans (set_listeners rest w)) with (chans w).
    cbv zeta. by rewrite (try_send_not_waiting _ _ _ Hl). }
  split.
  { unfold Ping_step, g. simpl.
    assert ((length (listeners w) <? cap (pingRequests (adapter w)))%nat
            = false) as -> by (apply Nat.ltb_ge; lia).
    done. }
  split; [done|].
  unfold r, admitted. rewrite Hrec. cbn [fst snd]. split.
  - unfold Ping_step, g. cbn [g_pc g_ctx].
    change (listeners (emit _ (set_listeners rest w))) with rest.
    change (cap (pingRequests (adapter (emit _ (set_listeners rest w)))))
      with (cap (pingRequests (adapter w))).
    assert ((length rest <? cap (pingRequests (adapter w)))%nat = true)
      as -> by (apply Nat.ltb_lt; rewrite <- Hfull, Hq; simpl; lia).
    done.
  - change (listeners (emit _ (set_listeners (rest ++ [pong]) _)))
      with (rest ++ [pong]).
    change (chans (emit _ (set_listeners (rest ++ [pong]) _)))
      with (chans w).
    by apply first_nobody.
Qed.

(** The pong handler on [saturated], with an eleventh caller blocked. *)
Lemma pong_without_waiters_empties_buffer_witness :
  let g := Goroutine None (PingRegister 1%nat 10%nat) in
  let received := scan_iteration None saturated in
  let admitted :=
    emit [EvEnqueue 10%nat]
      (set_listeners ([1; 2; 3; 4; 5; 6; 7; 8; 9; 10]%nat) received.2) in
  Forall (λ x, waiting (chans saturated) x = false) (listeners saturated)
  ∧ listeners (pongHandler "" saturated).2 = []
  ∧ Ping_step pong_ok g saturated = None
  ∧ Ping_step pong_ok g received.2 = Some (PingSend 1%nat 10%nat, admitted)
  ∧ propagateToFirstActiveListener (listeners admitted) None (chans admitted)
    = (false,
       Scan [] (chans saturated)
         (map EvDiscard ([1; 2; 3; 4; 5; 6; 7; 8; 9; 10]%nat))).
Proof.
  assert (H1 : Forall (λ x, waiting (chans saturated) x = false)
                 (listeners saturated))
    by (apply Forall_forall; intros x Hx; vm_compute in Hx;
        repeat (apply elem_of_cons in Hx as [->|Hx]; [by vm_compute|]);
        by apply elem_of_nil in Hx).
  destruct (pong_without_waiters_empties_buffer saturated "" 1%nat 10%nat
              pong_ok 0%nat ([1; 2; 3; 4; 5; 6; 7; 8; 9]%nat) H1)
    as ((_ & Hl & _) & Hadm).
  destruct Hadm as (Hb & _ & Hs & Hr); [by vm_compute..|].
  exact (conj H1 (conj Hl (conj Hb (conj Hs Hr)))).
Defined.

(** X6. A caller whose context ends while it waits for its pong returns
    the error of the context and leaves its reply channel in the buffer,
    where nobody waits on it any more. *)
Theorem cancelled_Ping_keeps_slot
    (w : world) (c : Conn) (o : ping_oracle) (e : ctx_error) :
  conn (adapter w) = Some c →
  (length (listeners w) < cap (pingRequests (adapter w)))%nat →
  write_control o = None →
  let pong := next_chan w in
  let parked := Ping None o w in
  let out := cancel e parked.1 parked.2 in
  parked.1 = Goroutine None (PingParked pong)
  ∧ waiting (chans parked.2) pong = true
  ∧ out.1 = Goroutine (Some e) (PingReturn (Some (ContextError e)))
  ∧ listeners out.2 = listeners w ++ [pong]
  ∧ length (listeners out.2) = S (length (listeners w))
  ∧ waiting (chans out.2) pong = false
  ∧ log out.2 = log parked.2.
Proof.
  intros Hc Hroom Ho pong parked out.
  unfold out, parked. rewrite (Ping_parks _ _ _ Hc Hroom Ho).
  fold pong. cbn [fst snd]. unfold cancel. cbn [g_ctx g_pc].
  assert (Hw : waiting (<[pong := Receiving]>
                          (<[pong := NoReceiver]> (chans w))) pong = true)
    by (unfold waiting; by rewrite lookup_insert_eq).
  change (chans (set_chans ?h _)) with h. rewrite Hw. cbn [fst snd].
  split; [done|]. split; [done|]. split; [done|]. split; [done|].
  split.
  { change (length (listeners w ++ [pong]) = S (length (listeners w))).
    rewrite length_app. simpl. lia. }
  split; [|done].
  unfold waiting. change (chans (set_chans ?h _)) with h.
  by rewrite lookup_insert_eq.
Qed.

(** A call on [dialed] whose deadline passes while it waits. *)
Lemma cancelled_Ping_keeps_slot_witness :
  conn (adapter dialed) = Some 1%nat
  ∧ (length (listeners dialed) < cap (pingRequests (adapter dialed)))%nat
  ∧ write_control pong_ok = None
  ∧ (cancel DeadlineExceeded (Ping None pong_ok dialed).1
       (Ping None pong_ok dialed).2).1
    = Goroutine (Some DeadlineExceeded)
        (PingReturn (Some (ContextError DeadlineExceeded)))
  ∧ listeners
      (cancel DeadlineExceeded (Ping None pong_ok dialed).1
         (Ping None pong_ok dialed).2).2
    = [0%nat].
Proof.
  assert (H1 : conn (adapter dialed) = Some 1%nat) by reflexivity.
  assert (H2 : (length (listeners dialed)
                < cap (pingRequests (adapter dialed)))%nat)
    by (vm_compute; lia).
  assert (H3 : write_control pong_ok = None) by reflexivity.
  destruct (cancelled_Ping_keeps_slot dialed 1%nat pong_ok DeadlineExceeded
              H1 H2 H3) as (_ & _ & Hr & Hl & _).
  exact (conj H1 (conj H2 (conj H3 (conj Hr Hl)))).
Defined.

(** X7. A notification that was handed to a parked caller is what that
    caller returns, even if its context ends before it resumes: the
    cancellation changes nothing in the world and the caller returns the
    notification, not the error of the context. *)
Theorem delivery_survives_cancel
    (w : world) (pong : chan) (n : option error) (e : ctx_error)
    (o : ping_oracle) :
  chans w !! pong = Some (Received n) →
  let out := cancel e (Goroutine None (PingParked pong)) w in
  out.2 = w
  ∧ out.1 = Goroutine (Some e) (PingParked pong)
  ∧ Ping_step o out.1 out.2
    = Some (PingReturn n, set_chans (<[pong := NoReceiver]> (chans w)) w).
Proof.
  intros Hn out. unfold out, cancel, waiting. simpl. rewrite Hn. simpl.
  repeat split. unfold Ping_step. simpl. by rewrite Hn.
Qed.

(** The first caller of [two_pending], served by a pong, then cancelled. *)
Lemma delivery_survives_cancel_witness :
  chans (pongHandler "" two_pending).2 !! 0%nat = Some (Received None)
  ∧ (cancel Canceled (Goroutine None (PingParked 0%nat))
       (pongHandler "" two_pending).2).2
    = (pongHandler "" two_pending).2
  ∧ (cancel Canceled (Goroutine None (PingParked 0%nat))
       (pongHandler "" two_pending).2).1
    = Goroutine (Some Canceled) (PingParked 0%nat).
Proof.
  assert (H1 : chans (pongHandler "" two_pending).2 !! 0%nat
               = Some (Received None)) by (by vm_compute).
  destruct (delivery_survives_cancel _ 0%nat None Canceled pong_ok H1)
    as (Hw & Hg & _).
  exact (conj H1 (conj Hw Hg)).
Defined.

(** X8. Ping and pong, one after the other.  On a bound adapter with room
    in the buffer, where nobody queued is waiting, a caller whose frame is
    written parks; the next pong discards what was queued before it and
    serves it; it returns nil; the buffer is empty and the adapter is still
    bound. *)
Theorem Ping_pong_round_trip
    (w : world) (c : Conn) (o : ping_oracle) (appData : string) :
  conn (adapter w) = Some c →
  (length (listeners w) < cap (pingRequests (adapter w)))%nat →
  write_control o = None →
  Forall (λ l, waiting (chans w) l = false) (listeners w) →
  next_chan w ∉ listeners w →
  let pong := next_chan w in
  let parked := Ping None o w in
  let ponged := (pongHandler appData parked.2).2 in
  parked.1 = Goroutine None (PingParked pong)
  ∧ ∃ w',
      Ping_step o parked.1 ponged = Some (PingReturn None, w')
      ∧ listeners w' = []
      ∧ conn (adapter w') = Some c
      ∧ waiting (chans w') pong = false
      ∧ log w'
        = log parked.2 ++ map EvDiscard (listeners w) ++ [EvNotify pong None].
Proof.
  intros Hc Hroom Ho Hnobody Hfresh pong parked ponged.
  unfold ponged, parked. rewrite (Ping_parks _ _ _ Hc Hroom Ho).
  fold pong. cbn [fst snd]. split; [done|].
  set (h := <[pong := Receiving]> (<[pong := NoReceiver]> (chans w))).
  assert (Hskip : Forall (λ l, waiting h l = false) (listeners w)).
  { apply Forall_forall. intros l Hl.
    rewrite Forall_forall in Hnobody. specialize (Hnobody l Hl).
    assert (pong ≠ l) by (intros Heq; subst l; by apply Hfresh).
    unfold waiting, h in *. by rewrite !lookup_insert_ne. }
  assert (Hwin : waiting h pong = true)
    by (unfold waiting, h; by rewrite lookup_insert_eq).
  unfold pongHandler.
  change (listeners (set_chans _ _)) with (listeners w ++ [pong]).
  change (chans (set_chans ?x _)) with x.
  rewrite (first_skips _ _ _ _ Hskip), (first_delivers _ _ _ _ Hwin).
  cbn [fst snd]. eexists. split.
  - unfold Ping_step. cbn [g_pc].
    change (chans (apply_scan ?r _)) with (scan_chans r). simpl.
    rewrite lookup_insert_eq. reflexivity.
  - split; [done|]. split; [simpl; by rewrite Hc|]. split.
    + unfold waiting. simpl. by rewrite lookup_insert_eq.
    + simpl. by rewrite <- !app_assoc.
Qed.

(** A ping on [dialed] answered by a pong. *)
Lemma Ping_pong_round_trip_witness :
  conn (adapter dialed) = Some 1%nat
  ∧ (length (listeners dialed) < cap (pingRequests (adapter dialed)))%nat
  ∧ write_control pong_ok = None
  ∧ Forall (λ l, waiting (chans dialed) l = false) (listeners dialed)
  ∧ (next_chan dialed ∉ listeners dialed)
  ∧ ∃ w',
      Ping_step pong_ok (Ping None pong_ok dialed).1
        (pongHandler "" (Ping None pong_ok dialed).2).2
      = Some (PingReturn None, w')
      ∧ listeners w' = [].
Proof.
  assert (H1 : conn (adapter dialed) = Some 1%nat) by reflexivity.
  assert (H2 : (length (listeners dialed)
                < cap (pingRequests (adapter dialed)))%nat)
    by (vm_compute; lia).
  assert (H3 : write_control pong_ok = None) by reflexivity.
  assert (H4 : Forall (λ l, waiting (chans dialed) l = false)
                 (listeners dialed)) by constructor.
  assert (H5 : next_chan dialed ∉ listeners dialed)
    by (intros H; by apply elem_of_nil in H).
  destruct (Ping_pong_round_trip dialed 1%nat pong_ok "" H1 H2 H3 H4 H5)
    as (_ & w' & Hs & Hl & _).
  refine (conj H1 (conj H2 (conj H3 (conj H4 (conj H5 _))))).
  exists w'. by split.
Defined.

(** ** Write, Read and the connection *)


(** X10. [Read] returns no error exactly when its context is not done, a
    connection is bound and the transport read returns none; the message
    type and the payload are then those of the transport, whatever they
    are, and the adapter stays bound. *)
Theorem Read_outcome (ctx : context) (rm : read_outcome) (w : world) :
  let out := Read ctx rm w in
  (out.1.2 = None
   ↔ ctx = None ∧ is_Some (conn (adapter w)) ∧ rm_err rm = None)
  ∧ (out.1.2 = None →
     out.1.1 = (rm_msgType rm, rm_msg rm)
     ∧ conn (adapter out.2) = conn (adapter w)).
Proof.
  unfold Read. destruct ctx as [e|]; simpl.
  { split; [|done]. split; [done|]. by intros (? & _). }
  destruct (conn (adapter w)) as [c|] eqn:Hc; simpl.
  - destruct (rm_err rm) as [err|] eqn:He; simpl.
    + destruct (closeCode err); simpl; (split; [|done]);
        (split; [done|]); by intros (_ & _ & ?).
    + split.
      * split; [|done]. intros _. split; [done|]. by split; [eexists|].
      * intros _. split; [done|]. by rewrite handled_conn.
  - split; [|done]. split; [done|]. by intros (_ & [c Hc'] & _).
Qed.

(** X11. The connection handle changes in three ways only: a [Dial] with a
    context that is not done binds an unbound adapter to the connection it
    obtained, [Close] unbinds a bound adapter, and a [Read] whose transport
    read returned a close error unbinds a bound adapter.  Every other
    action leaves the handle as it is. *)
Theorem connection_changes (a : action) (w : world) :
  conn (adapter (act a w)) = conn (adapter w) ∨ rebinds a w (act a w).
Proof.
  destruct a as [ctx target dial|ctx code reason write|ctx msgType msg write
                |ctx rm|o g|e g]; simpl.
  - unfold Dial. destruct ctx; [by left|].
    destruct (conn (adapter w)) eqn:Hc; [by left|].
    destruct dial; [by right|by left].
  - unfold Close. destruct (conn (adapter w)) eqn:Hc; [|by left].
    right. by split; [eexists|].
  - left. unfold Write. destruct ctx; [done|].
    by destruct (conn (adapter w)) eqn:Hc.
  - unfold Read. destruct ctx; [by left|].
    destruct (conn (adapter w)) as [c|] eqn:Hc; [|by left].
    destruct (rm_err rm) as [err|] eqn:He; simpl.
    + destruct (closeCode err) as [ceCode|] eqn:Hcode; simpl.
      * right. split; [by eexists|]. split; [done|]. by exists err, ceCode.
      * left. by rewrite handled_conn.
    + left. by rewrite handled_conn.
  - left. destruct (Ping_step o g w) as [[pc w']|] eqn:Hstep; [|done].
    by apply Ping_step_buffer in Hstep as (? & _).
  - left. by rewrite cancel_buffer.
Qed.

(** X12. Whatever is done to an adapter after its construction, its buffer
    keeps the capacity 10 and never holds more than 10 reply channels, and
    the dialer and the request headers stay those of the construction, the
    default dialer standing in for a nil one. *)
Theorem construction_is_kept
    (d : option Dialer) (h : option Header) (acts : list action) :
  let w := run acts (new_world (NewGorillaWebsocketConnectionAdapter d h)) in
  cap (pingRequests (adapter w)) = 10%nat
  ∧ (length (listeners w) ≤ 10)%nat
  ∧ dialer (adapter w) = default DefaultDialer d
  ∧ requestHeader (adapter w) = h.
Proof.
  intros w.
  destruct (run_invariants acts
              (new_world (NewGorillaWebsocketConnectionAdapter d h)))
    as (Hcap & Hd & Hh & Hw).
  fold w in Hcap, Hd, Hh, Hw.
  assert (Hin : within_capacity w) by (apply Hw; unfold within_capacity;
                                       simpl; lia).
  unfold within_capacity in Hin. rewrite Hcap in Hin.
  split; [done|]. split; [done|]. split; [|done].
  rewrite Hd. by destruct d.
Qed.

(** ** What Ping returns *)



(** X14. Under any interleaving, when [Ping] returns nil or a close error,
    the caller had made its reply channel, registered it and written its
    ping frame, in this order, and that very value was delivered to its
    reply channel by a scan that ran after the call began. *)
Theorem Ping_reply_was_delivered
    (ctx : context) (w0 : world) (tr : list event) (g : goroutine)
    (w : world) (r : option error) :
  exec (Goroutine ctx PingEntry) w0 tr g w →
  g_pc g = PingReturn r →
  reply r →
  ∃ c pong ext,
    tr = [EvMake pong; EvEnqueue pong; EvWriteControl c PingFrame]
    ∧ log w = log w0 ++ ext
    ∧ EvNotify pong r ∈ ext.
Proof.
  intros He Hpc Hr. destruct (exec_answered _ _ _ _ _ He) as (ext & Hl & H).
  rewrite Hpc in H. destruct H as [_ H].
  destruct (H Hr) as (c & pong & Htr & Hin). by exists c, pong, ext.
Qed.

(** The call on [dialed] that a pong answered. *)
Lemma Ping_reply_was_delivered_witness :
  ∃ w,
    exec (Goroutine None PingEntry) dialed
         [EvMake 0%nat; EvEnqueue 0%nat; EvWriteControl 1%nat PingFrame]
         (Goroutine None (PingReturn None)) w
    ∧ reply None
    ∧ ∃ c pong ext,
        [EvMake 0%nat; EvEnqueue 0%nat; EvWriteControl 1%nat PingFrame]
        = [EvMake pong; EvEnqueue pong; EvWriteControl c PingFrame]
        ∧ log w = log dialed ++ ext
        ∧ EvNotify pong None ∈ ext.
Proof.
  destruct exec_pinging_answered as [w He]. exists w.
  exact (conj He (conj I (Ping_reply_was_delivered _ _ _ _ _ _ He eq_refl I))).
Defined.

(** X17. [Dial] never touches the buffer of pending requests, the reply
    channels or the capacity, whatever its context and the outcome of the
    handshake.  What the scan of [Close] left queued is therefore still
    queued, in the same state, once a new connection is bound. *)
Theorem Dial_keeps_pending
    (ctx ctx' : context) (target : string) (dial : dial_outcome)
    (code : StatusCode) (reason : string) (write : option lib_error)
    (w : world) :
  let after := (Dial ctx target dial w).2 in
  let closed := (Close ctx' code reason write w).2 in
  let redialed := (Dial ctx target dial closed).2 in
  listeners after = listeners w
  ∧ chans after = chans w
  ∧ cap (pingRequests (adapter after)) = cap (pingRequests (adapter w))
  ∧ listeners redialed = listeners closed
  ∧ chans redialed = chans closed.
Proof.
  assert (H : ∀ w', listeners (Dial ctx target dial w').2 = listeners w'
                    ∧ chans (Dial ctx target dial w').2 = chans w'
                    ∧ cap (pingRequests (adapter (Dial ctx target dial w').2))
                      = cap (pingRequests (adapter w'))).
  { intros w'. unfold Dial. destruct ctx; [done|].
    destruct (conn (adapter w')); [done|]. by destruct dial. }
  intros after closed redialed.
  destruct (H w) as (? & ? & ?), (H closed) as (? & ? & _). done.
Qed.

End Extras.

(** * Properties of the example client *)

Module ClientFacts.
Import Gorilla Facts ExampleClient.
Local Open Scope list_scope.
Local Open Scope Z_scope.

Lemma wrap64_small z : 0 ≤ z < 2 ^ 63 → wrap64 z = z.
Proof.
  intros Hz. unfold wrap64.
  rewrite Z.mod_small by lia. lia.
Qed.

Lemma Write_nil_iff ctx msgType msg write w :
  (Write ctx msgType msg write w).1 = None
  ↔ ctx = None ∧ is_Some (conn (adapter w)) ∧ write = None.
Proof.
  unfold Write. destruct ctx as [e|]; simpl.
  { split; [done|]. by intros (? & _). }
  destruct (conn (adapter w)) as [c|]; simpl.
  - split.
    + destruct write; [done|]. intros _. split; [done|]. by split; [eexists|].
    + by intros (_ & _ & ->).
  - split; [done|]. by intros (_ & [c Hc'] & _).
Qed.

Lemma Write_conn ctx msgType msg write w :
  conn (adapter (Write ctx msgType msg write w).2) = conn (adapter w).
Proof.
  unfold Write. destruct ctx; [done|].
  by destruct (conn (adapter w)) eqn:Hc.
Qed.

(** [OnMessage] in one piece. *)
Lemma OnMessage_eq ctx sessionId msgType msg write client w :
  OnMessage ctx sessionId msgType msg write client w
  = (Outcome None false
       (match (Write ctx Text (hello "Hello from OnMessage") write w).1 with
        | Some _ => true
        | None => false
        end),
     Client (wrap64 (processedMsgCount client + 1)) (restartCount client),
     (Write ctx Text (hello "Hello from OnMessage") write w).2).
Proof.
  unfold OnMessage.
  by destruct (Write ctx Text (hello "Hello from OnMessage") write w)
    as [[err|] w'].
Qed.

Lemma session_cons d ds client w :
  session (d :: ds) client w
  = session ds
      (Client (wrap64 (processedMsgCount client + 1)) (restartCount client))
      (Write (d_ctx d) Text (hello "Hello from OnMessage") (d_write d) w).2.
Proof. unfold session. cbn [foldl fst snd]. by rewrite OnMessage_eq. Qed.

(** The messages of a session are counted one by one. *)
Lemma session_counts ds client w :
  0 ≤ processedMsgCount client →
  processedMsgCount client + Z.of_nat (length ds) < 2 ^ 63 →
  processedMsgCount (session ds client w).1
  = processedMsgCount client + Z.of_nat (length ds)
  ∧ restartCount (session ds client w).1 = restartCount client
  ∧ conn (adapter (session ds client w).2) = conn (adapter w).
Proof.
  revert client w. induction ds as [|d ds IH]; intros client w Hpos Hlt.
  - simpl. split; [lia|done].
  - rewrite session_cons. rewrite length_cons, Nat2Z.inj_succ in Hlt |- *.
    assert (Hc' : wrap64 (processedMsgCount client + 1)
                  = processedMsgCount client + 1)
      by (apply wrap64_small; lia).
    destruct (IH (Client (wrap64 (processedMsgCount client + 1))
                    (restartCount client))
                 (Write (d_ctx d) Text (hello "Hello from OnMessage")
                    (d_write d) w).2) as (H1 & H2 & H3); simpl.
    + lia.
    + lia.
    + rewrite H1, H2, H3, Write_conn. simpl. split; [lia|done].
Qed.

End ClientFacts.

Module ClientExtras.
Import Gorilla Facts ExampleClient ClientFacts.
Local Open Scope list_scope.
Local Open Scope Z_scope.


(** X16. A session that starts with a count of [k] processed messages and
    hands [n] messages to [OnMessage] ends with the count [k + n], as long
    as that stays below 2^63, whatever happens to the replies.  A restart
    after it makes [OnOpen] call [exit] exactly when [k + n] is at least 2
    and is not 2^63 - 1, where the restart counter wraps around to -2^63:
    the restart counter is recomputed from the count of processed
    messages, its previous value playing no part. *)
Theorem restart_exits_after_two_messages
    (ds : list delivery) (client : ExampleClientImpl) (w : world)
    (ctx : context) (write : option lib_error) :
  0 ≤ processedMsgCount client →
  processedMsgCount client + Z.of_nat (length ds) < 2 ^ 63 →
  let after := session ds client w in
  let out := OnOpen ctx true write after.1 after.2 in
  processedMsgCount after.1 = processedMsgCount client + Z.of_nat (length ds)
  ∧ restartCount after.1 = restartCount client
  ∧ exit_called out.1.1
    = (2 <=? processedMsgCount client + Z.of_nat (length ds))
      && negb (processedMsgCount client + Z.of_nat (length ds)
               =? 2 ^ 63 - 1)
  ∧ (processedMsgCount client + Z.of_nat (length ds) = 2 ^ 63 - 1 →
     exit_called out.1.1 = false).
Proof.
  intros Hpos Hlt after out.
  destruct (session_counts ds client w Hpos Hlt) as (Hn & Hr & _).
  fold after in Hn, Hr. split; [done|]. split; [done|].
  assert (Hexit : exit_called out.1.1
                  = (3 <=? wrap64 (processedMsgCount client
                                   + Z.of_nat (length ds) + 1))).
  { unfold out, OnOpen. rewrite Hn.
    by destruct (Write ctx Text (hello "Hello from OnOpen") write after.2)
      as [[err|] w']. }
  rewrite Hexit.
  set (m := processedMsgCount client + Z.of_nat (length ds)) in *.
  destruct (Z.eqb_spec m (2 ^ 63 - 1)) as [Hmax|Hne].
  - assert (Hwrap : wrap64 (m + 1) = - 2 ^ 63)
      by (rewrite Hmax; reflexivity).
    rewrite Hwrap, andb_false_r. by split.
  - rewrite wrap64_small, andb_true_r by lia. split; [|done].
    destruct (Z.leb_spec 3 (m + 1)), (Z.leb_spec 2 m); lia || done.
Qed.

(** Two messages after a fresh start, then a restart. *)
Lemma restart_exits_after_two_messages_witness :
  0 ≤ processedMsgCount NewExampleClientImpl
  ∧ processedMsgCount NewExampleClientImpl
    + Z.of_nat (length [Delivery None "s" Text None None;
                        Delivery None "s" Binary None (Some broken_pipe)])
    < 2 ^ 63
  ∧ exit_called
      (OnOpen None true None
         (session [Delivery None "s" Text None None;
                   Delivery None "s" Binary None (Some broken_pipe)]
            NewExampleClientImpl dialed).1
         (session [Delivery None "s" Text None None;
                   Delivery None "s" Binary None (Some broken_pipe)]
            NewExampleClientImpl dialed).2).1.1
    = true.
Proof.
  assert (H1 : 0 ≤ processedMsgCount NewExampleClientImpl) by (simpl; lia).
  assert (H2 : processedMsgCount NewExampleClientImpl
               + Z.of_nat (length [Delivery None "s" Text None None;
                                   Delivery None "s" Binary None
                                     (Some broken_pipe)])
               < 2 ^ 63) by (simpl; lia).
  destruct (restart_exits_after_two_messages
              [Delivery None "s" Text None None;
               Delivery None "s" Binary None (Some broken_pipe)]
              NewExampleClientImpl dialed None None H1 H2)
    as (_ & _ & He & _).
  exact (conj H1 (conj H2 He)).
Defined.

(** X18. [OnMessage] counts the message, with the wrap-around of a 64-bit
    counter, whether or not its reply can be written; it asks for a
    restart exactly when the reply cannot be written, that is unless the
    context is not done, the adapter is bound and the transport write
    succeeds; it never asks to exit and leaves the restart counter and the
    connection handle alone. *)
Theorem OnMessage_outcome
    (ctx : context) (sessionId : string) (msgType : MessageType)
    (msg : option (list Byte.byte)) (write : option lib_error)
    (client : ExampleClientImpl) (w : world) :
  let out := OnMessage ctx sessionId msgType msg write client w in
  (restart_called out.1.1 = false
   ↔ ctx = None ∧ is_Some (conn (adapter w)) ∧ write = None)
  ∧ exit_called out.1.1 = false
  ∧ returned out.1.1 = None
  ∧ processedMsgCount out.1.2 = wrap64 (processedMsgCount client + 1)
  ∧ (0 ≤ processedMsgCount client < 2 ^ 63 - 1 →
     processedMsgCount out.1.2 = processedMsgCount client + 1)
  ∧ (processedMsgCount client = 2 ^ 63 - 1 →
     processedMsgCount out.1.2 = - 2 ^ 63)
  ∧ restartCount out.1.2 = restartCount client
  ∧ conn (adapter out.2) = conn (adapter w).
Proof.
  intros out. unfold out. rewrite OnMessage_eq. cbn [fst snd].
  pose proof (Write_nil_iff ctx Text (hello "Hello from OnMessage") write w)
    as Hiff.
  split.
  { destruct (Write ctx Text (hello "Hello from OnMessage") write w).1;
      simpl; split; try done.
    - intros H. by apply Hiff in H.
    - intros _. by apply Hiff. }
  split; [done|]. split; [done|]. split; [done|].
  split; [intros H; simpl; apply wrap64_small; lia|].
  split; [intros H; simpl; by rewrite H|].
  split; [done|]. apply Write_conn.
Qed.

End ClientExtras.
